(** * scan-npm-vulnerable-actions: a shallow embedding of [main.go]

    The program lists the repositories of a GitHub organisation, collects
    the [uses:] references of their workflow files into a usage mapping,
    inspects the [package-lock.json] / [package.json] of every referenced
    action and reports the actions that pin a package of the infected list.

    The GitHub client, the YAML and JSON decoders and the infected-package
    list live outside [main.go]; they are parameters of the embedding. *)

From Stdlib Require Import ZArith Ascii String DecimalString.
From stdpp Require Import base option list gmap sets strings.

Local Open Scope Z_scope.

(** ** Go's [strings] package, on byte strings *)

Module Strings.

Fixpoint drop (n : nat) (s : string) : string :=
  match n, s with
  | O, _ => s
  | S _, EmptyString => EmptyString
  | S n', String _ s' => drop n' s'
  end.

Fixpoint take (n : nat) (s : string) : string :=
  match n, s with
  | O, _ => EmptyString
  | S _, EmptyString => EmptyString
  | S n', String c s' => String c (take n' s')
  end.

(** [strings.HasPrefix(s, prefix)] *)
Fixpoint HasPrefix (s prefix : string) {struct prefix} : bool :=
  match prefix with
  | EmptyString => true
  | String p prefix' =>
      match s with
      | EmptyString => false
      | String c s' => if Ascii.eqb c p then HasPrefix s' prefix' else false
      end
  end.

(** [strings.HasSuffix(s, suffix)]:
    [len(s) >= len(suffix) && s[len(s)-len(suffix):] == suffix] *)
Definition HasSuffix (s suffix : string) : bool :=
  (String.length suffix <=? String.length s)%nat
  && String.eqb (drop (String.length s - String.length suffix) s) suffix.

(** [strings.TrimPrefix(s, prefix)] *)
Definition TrimPrefix (s prefix : string) : string :=
  if HasPrefix s prefix then drop (String.length prefix) s else s.

(** [strings.Index(s, substr)]: first occurrence, [None] for Go's [-1]. *)
Fixpoint Index (s substr : string) : option nat :=
  if HasPrefix s substr then Some O
  else match s with
       | EmptyString => None
       | String _ s' => S <$> Index s' substr
       end.

(** [strings.Contains(s, substr)]: [Index(s, substr) >= 0] *)
Definition Contains (s substr : string) : bool :=
  match Index s substr with Some _ => true | None => false end.

(** The cutting loop of [genSplit]: find the next separator, emit what
    precedes it, go on behind it.  Go bounds the loop by
    [Count(s, sep)], which is at most [len(s)]; once the separators are
    used up [Index] fails and the loop breaks by itself. *)
Fixpoint genSplit (n : nat) (s sep : string) : list string :=
  match n with
  | O => [s]
  | S n' =>
      match Index s sep with
      | None => [s]
      | Some m => take m s :: genSplit n' (drop (m + String.length sep) s) sep
      end
  end.

Fixpoint explode (s : string) : list string :=
  match s with
  | EmptyString => []
  | String c s' => String c EmptyString :: explode s'
  end.

(** [strings.Split(s, sep)].  The program only splits on non-empty
    separators; for the empty one Go cuts after every UTF-8 sequence,
    rendered here byte by byte. *)
Definition Split (s sep : string) : list string :=
  match sep with
  | EmptyString => explode s
  | String _ _ => genSplit (String.length s) s sep
  end.

End Strings.

(** ** The infected-package check and the lockfile path helpers *)

Definition node_modules_prefix : string := "node_modules/".
Definition node_modules_sep : string := "/node_modules/".

(** [extractPackageName], main.go:306 *)
Definition extractPackageName (pkgPath : string) : string :=
  let pkgName := Strings.TrimPrefix pkgPath node_modules_prefix in
  if Strings.HasPrefix pkgName "@"
     && Strings.Contains pkgName "/"
     && negb (Strings.Contains pkgName node_modules_sep)
  then pkgName
  else
    let parts := Strings.Split pkgName node_modules_sep in
    if (1 <? length parts)%nat then List.last parts pkgName else pkgName.

(** [parseActionReference], main.go:214 *)
Definition parseActionReference (actionUse : string) : string * string :=
  let parts := Strings.Split (hd "" (Strings.Split actionUse "@")) "/" in
  match parts with
  | owner :: repo :: _ => (owner, repo)
  | _ => ("", "")
  end.

(** [isInfectedPackage], main.go:325; the list [infectedPackages] is a
    package-level variable declared outside [main.go]. *)
Fixpoint isInfectedPackage (infectedPackages : list string) (fullPkg : string) : bool :=
  match infectedPackages with
  | [] => false
  | infectedPkg :: rest =>
      if String.eqb fullPkg infectedPkg then true
      else isInfectedPackage rest fullPkg
  end.

(** ** Decoded documents

    [yaml.Unmarshal] and [json.Unmarshal] into [map[string]interface{}]
    build trees of dynamically typed values.  A Go map is rendered as the
    list of its entries in the order in which [range] visits them.  The
    program ranges at most once over each decoded map; a second decoding
    of the same text is another map, with an order of its own, and is
    rendered by another decoder (see [decode_alike]). *)

#[warnings="-register-all"]
Inductive value : Type :=
| VNull
| VBool (b : bool)
| VNum (literal : string)
| VStr (s : string)
| VSeq (items : list value)                 (* []interface{} *)
| VMap (entries : list (string * value))    (* map[string]interface{} *)
| VMapAny (entries : list (value * value)). (* map[interface{}]interface{} *)

Abbreviation document := (list (string * value)).

(** [m[key]]: the stored value, the nil interface when the key is absent. *)
Fixpoint index (m : document) (key : string) : value :=
  match m with
  | [] => VNull
  | (k, v) :: rest => if String.eqb k key then v else index rest key
  end.

(** The type assertions [v.(map[string]interface{})], [v.([]interface{})]
    and [v.(string)], with [None] for [ok == false]. *)
Definition as_map (v : value) : option document :=
  match v with VMap entries => Some entries | _ => None end.

Definition as_seq (v : value) : option (list value) :=
  match v with VSeq items => Some items | _ => None end.

Definition as_string (v : value) : option string :=
  match v with VStr s => Some s | _ => None end.

(** ** Output, exits and panics *)

Inductive event : Type :=
| Stdout (text : string)                  (* fmt.Printf, fmt.Println *)
| Logged (text : string)                  (* log.Printf, log.Fatalf *)
| ListRequest (org : string) (page : Z)   (* Repositories.ListByOrg *)
| Request (owner repo path : string).     (* Repositories.GetContents *)

Inductive outcome (A : Type) : Type :=
| Done (a : A) (out : list event)
| Fatal (out : list event)    (* log.Fatalf: the process exits with status 1 *)
| Panic (out : list event).   (* run-time panic *)
Arguments Done {A} a out.
Arguments Fatal {A} out.
Arguments Panic {A} out.

Definition prepend {A} (o : list event) (m : outcome A) : outcome A :=
  match m with
  | Done a o' => Done a (o ++ o')
  | Fatal o' => Fatal (o ++ o')
  | Panic o' => Panic (o ++ o')
  end.

Definition output {A} (m : outcome A) : list event :=
  match m with Done _ o | Fatal o | Panic o => o end.

#[export] Instance outcome_ret : MRet outcome := λ A a, Done a [].
#[export] Instance outcome_bind : MBind outcome := λ A B f m,
  match m with
  | Done a o => prepend o (f a)
  | Fatal o => Fatal o
  | Panic o => Panic o
  end.

Definition emit (e : event) : outcome unit := Done () [e].

Definition nl : string := String (ascii_of_nat 10) EmptyString.

(** The bytes of the warning sign that precedes the infection notice. *)
Definition warning_sign : string :=
  string_of_list_ascii
    (ascii_of_nat <$> [226; 154; 160; 239; 184; 143]%nat).

(** [%d] *)
Definition fmt_int (n : Z) : string := NilZero.string_of_int (Z.to_int n).

(** [%t] *)
Definition fmt_bool (b : bool) : string := if b then "true" else "false".

(** [%v] of a [[]string] *)
Definition fmt_strings (l : list string) : string :=
  "[" +:+ String.concat " " l +:+ "]".

Definition printf (text : string) : outcome unit := emit (Stdout text).
Definition log_printf (text : string) : outcome unit := emit (Logged text).
Definition log_fatalf {A} (text : string) : outcome A := Fatal [Logged text].

(** Go's [int], 64 bits wide: [repoCount++] wraps around. *)
Definition wrap_int (n : Z) : Z := (n + 2 ^ 63) mod 2 ^ 64 - 2 ^ 63.

(** ** The GitHub client *)

Inductive error : Type :=
| ErrorResponse (status : Z) (text : string) (* *github.ErrorResponse: the API answered with an error status *)
| OtherError (text : string).                (* every other error value *)

Definition Error (err : error) : string :=
  match err with ErrorResponse _ text | OtherError text => text end.

Record RepositoryContent : Type := {
  GetType : string;
  GetName : string;
  GetPath : string;
  GetContent : string + error   (* the decoded content, or the decoding error *)
}.

(** What [GetContents] hands back: a file, a directory listing (and then
    a nil file pointer), or an error. *)
Inductive contents : Type :=
| File (fileContent : RepositoryContent)
| Directory (directoryContent : list RepositoryContent)
| ContentsErr (err : error).

Inductive listing : Type :=
| Page (repos : list string) (NextPage : Z)
| ListErr (err : error).

Record Client : Type := {
  ListByOrg : string → Z → listing;
  GetContents : string → string → string → contents
}.

(** ** The usage mapping *)

Record ActionInfo : Type := {
  Repos : gset string;
  UsesNpm : bool;
  IsInfected : bool;
  InfectedPackages : list string;
  Analyzed : bool
}.

Definition set_Repos (r : gset string) (i : ActionInfo) : ActionInfo :=
  {| Repos := r; UsesNpm := UsesNpm i; IsInfected := IsInfected i;
     InfectedPackages := InfectedPackages i; Analyzed := Analyzed i |}.

Definition set_UsesNpm (b : bool) (i : ActionInfo) : ActionInfo :=
  {| Repos := Repos i; UsesNpm := b; IsInfected := IsInfected i;
     InfectedPackages := InfectedPackages i; Analyzed := Analyzed i |}.

Definition set_Infected (found : list string) (i : ActionInfo) : ActionInfo :=
  {| Repos := Repos i; UsesNpm := UsesNpm i; IsInfected := true;
     InfectedPackages := found; Analyzed := Analyzed i |}.

Definition set_Analyzed (b : bool) (i : ActionInfo) : ActionInfo :=
  {| Repos := Repos i; UsesNpm := UsesNpm i; IsInfected := IsInfected i;
     InfectedPackages := InfectedPackages i; Analyzed := b |}.

(** [&ActionInfo{Repos: make(map[string]struct{}), Analyzed: false}] *)
Definition new_ActionInfo : ActionInfo :=
  {| Repos := ∅; UsesNpm := false; IsInfected := false;
     InfectedPackages := []; Analyzed := false |}.

Abbreviation usage := (gmap string ActionInfo).

(** Configuration, main.go:16 *)
Definition maxRepos : Z := 0.
Definition enableLimit : bool := 0 <? maxRepos.

(** ** The program *)

Section Program.

(** The package-level list [infectedPackages], and the two decoders:
    the decoded document, or the error they return. *)
Variable infectedPackages : list string.
Variable yaml_Unmarshal : string → document + error.
Variable json_Unmarshal : string → document + error.
Variable client : Client.

(** [shouldStopScanning], main.go:95 *)
Definition shouldStopScanning (repoCount : Z) : bool :=
  enableLimit && (maxRepos <=? repoCount).

(** [logRepoProgress], main.go:99 *)
Definition logRepoProgress (repoCount : Z) (repoName : string) : outcome unit :=
  if enableLimit
  then printf ("Processing repository " +:+ fmt_int (wrap_int (repoCount + 1))
               +:+ "/" +:+ fmt_int maxRepos +:+ ": " +:+ repoName +:+ nl)
  else printf ("Processing repository: " +:+ repoName +:+ nl).

(** [addActionUsage], main.go:185 *)
Definition addActionUsage (actionUse repoName : string) (usesRepos : usage) : usage :=
  let usesRepos :=
    match usesRepos !! actionUse with
    | None => <[actionUse := new_ActionInfo]> usesRepos
    | Some _ => usesRepos
    end in
  match usesRepos !! actionUse with
  | Some info => <[actionUse := set_Repos ({[repoName]} ∪ Repos info) info]> usesRepos
  | None => usesRepos
  end.

(** One turn of the loop over the steps, main.go:173 *)
Definition processStep (repoName : string) (usesRepos : usage) (step : value) : usage :=
  match as_map step with
  | None => usesRepos
  | Some stepMap =>
      match as_string (index stepMap "uses") with
      | Some uses => addActionUsage uses repoName usesRepos
      | None => usesRepos
      end
  end.

(** [processJobSteps], main.go:162 *)
Definition processJobSteps (job : value) (repoName : string) (usesRepos : usage) : usage :=
  match as_map job with
  | None => usesRepos
  | Some jobMap =>
      match as_seq (index jobMap "steps") with
      | None => usesRepos
      | Some steps => foldl (processStep repoName) usesRepos steps
      end
  end.

(** [extractActionsFromWorkflow], main.go:145 *)
Definition extractActionsFromWorkflow (workflowContent repoName : string)
    (usesRepos : usage) : outcome usage :=
  match yaml_Unmarshal workflowContent with
  | inr err =>
      _ ← log_printf ("Error unmarshalling YAML in " +:+ repoName +:+ ": " +:+ Error err);
      mret usesRepos
  | inl workflow =>
      match as_map (index workflow "jobs") with
      | None => mret usesRepos
      | Some jobs =>
          mret (foldl (λ usesRepos job, processJobSteps job.2 repoName usesRepos)
                      usesRepos jobs)
      end
  end.

(** [processWorkflowFile], main.go:129 *)
Definition processWorkflowFile (org repoName : string) (content : RepositoryContent)
    (usesRepos : usage) : outcome usage :=
  _ ← emit (Request org repoName (GetPath content));
  match GetContents client org repoName (GetPath content) with
  | ContentsErr err =>
      _ ← log_printf ("Error getting file " +:+ GetPath content +:+ " in "
                      +:+ repoName +:+ ": " +:+ Error err);
      mret usesRepos
  | Directory _ => Panic []   (* fileContent is nil: GetContent dereferences it *)
  | File fileContent =>
      match GetContent fileContent with
      | inr err =>
          _ ← log_printf ("Error decoding content of " +:+ GetPath content +:+ " in "
                          +:+ repoName +:+ ": " +:+ Error err);
          mret usesRepos
      | inl decodedContent =>
          extractActionsFromWorkflow decodedContent repoName usesRepos
      end
  end.

(** [isWorkflowFile], main.go:124 *)
Definition isWorkflowFile (content : RepositoryContent) : bool :=
  String.eqb (GetType content) "file"
  && (Strings.HasSuffix (GetName content) ".yml"
      || Strings.HasSuffix (GetName content) ".yaml").

(** The loop over the directory entries, main.go:117 *)
Fixpoint processContents (org repoName : string) (contents : list RepositoryContent)
    (usesRepos : usage) : outcome usage :=
  match contents with
  | [] => mret usesRepos
  | content :: rest =>
      if isWorkflowFile content then
        usesRepos ← processWorkflowFile org repoName content usesRepos;
        processContents org repoName rest usesRepos
      else processContents org repoName rest usesRepos
  end.

Definition workflows_dir : string := ".github/workflows".

(** [processRepository], main.go:107 *)
Definition processRepository (org repoName : string) (usesRepos : usage) : outcome usage :=
  _ ← emit (Request org repoName workflows_dir);
  match GetContents client org repoName workflows_dir with
  | ContentsErr err =>
      match err with
      | ErrorResponse _ _ => mret usesRepos   (* Directory doesn't exist, skip *)
      | OtherError _ =>
          _ ← log_printf ("Error getting contents of .github/workflows in "
                          +:+ repoName +:+ ": " +:+ Error err);
          mret usesRepos
      end
  | File _ => mret usesRepos   (* the directory listing is nil *)
  | Directory contents => processContents org repoName contents usesRepos
  end.

(** What the loop over one page of repositories leaves behind: either
    [scanRepositories] has returned from inside it, or the outer loop
    goes on with the counter. *)
Inductive page_flow : Type :=
| Returned (usesRepos : usage)
| Next (repoCount : Z) (usesRepos : usage).

(** The loop over the repositories of a page, main.go:73 *)
Fixpoint scanPage (org : string) (repos : list string) (repoCount : Z)
    (usesRepos : usage) : outcome page_flow :=
  match repos with
  | [] => mret (Next repoCount usesRepos)
  | repoName :: rest =>
      if shouldStopScanning repoCount then
        _ ← printf ("Reached maximum of " +:+ fmt_int maxRepos
                    +:+ " repositories for testing." +:+ nl);
        mret (Returned usesRepos)
      else
        _ ← logRepoProgress repoCount repoName;
        let repoCount := wrap_int (repoCount + 1) in
        usesRepos ← processRepository org repoName usesRepos;
        scanPage org rest repoCount usesRepos
  end.

(** The paging loop of [scanRepositories], main.go:67.  The server
    decides when [NextPage] is 0, so the loop runs on fuel: [None] when
    the fuel is used up before the loop ends. *)
Fixpoint scanPages (fuel : nat) (org : string) (page repoCount : Z)
    (usesRepos : usage) : option (outcome usage) :=
  match fuel with
  | O => None
  | S fuel =>
      match ListByOrg client org page with
      | ListErr err =>
          Some (Fatal [ListRequest org page;
                       Logged ("Error listing repositories: " +:+ Error err)])
      | Page repos NextPage =>
          match scanPage org repos repoCount usesRepos with
          | Fatal o => Some (Fatal (ListRequest org page :: o))
          | Panic o => Some (Panic (ListRequest org page :: o))
          | Done (Returned usesRepos) o => Some (Done usesRepos (ListRequest org page :: o))
          | Done (Next repoCount usesRepos) o =>
              if shouldStopScanning repoCount || (NextPage =? 0)
              then Some (Done usesRepos (ListRequest org page :: o))
              else prepend (ListRequest org page :: o)
                     <$> scanPages fuel org NextPage repoCount usesRepos
          end
      end
  end.

(** [scanRepositories], main.go:58 *)
Definition scanRepositories (fuel : nat) (org : string) : option (outcome usage) :=
  scanPages fuel org 0 0 ∅.

(** One turn of the loop over the [packages] entries, main.go:276 *)
Definition checkPackage (foundInfected : list string) (entry : string * value) : list string :=
  let '(pkgPath, pkgInfo) := entry in
  if String.eqb pkgPath "" then foundInfected   (* Skip root package *)
  else
    match as_map pkgInfo with
    | None => foundInfected
    | Some pkgData =>
        match as_string (index pkgData "version") with
        | None => foundInfected
        | Some version =>
            let pkgName := extractPackageName pkgPath in
            let fullPkg := pkgName +:+ "@" +:+ version in
            if isInfectedPackage infectedPackages fullPkg
            then foundInfected ++ [fullPkg]
            else foundInfected
        end
    end.

(** [checkPackagesForInfection], main.go:268 *)
Definition checkPackagesForInfection (lockJSON : document) (info : ActionInfo)
    : outcome ActionInfo :=
  match as_map (index lockJSON "packages") with
  | None => mret info
  | Some packages =>
      let foundInfected := foldl checkPackage [] packages in
      if (0 <? length foundInfected)%nat then
        _ ← printf ("  " +:+ warning_sign +:+ "  INFECTED with "
                    +:+ fmt_int (Z.of_nat (length foundInfected)) +:+ " packages: "
                    +:+ fmt_strings foundInfected +:+ nl);
        mret (set_Infected foundInfected info)
      else mret info
  end.

(** [analyzePackageLockFile], main.go:232; the boolean result comes
    with the entry as the function leaves it. *)
Definition analyzePackageLockFile (owner repo : string) (info : ActionInfo)
    : outcome (bool * ActionInfo) :=
  _ ← emit (Request owner repo "package-lock.json");
  match GetContents client owner repo "package-lock.json" with
  | ContentsErr _ => mret (false, info)
  | found =>
      let info := set_UsesNpm true info in
      _ ← printf ("  Found package-lock.json for " +:+ owner +:+ "/" +:+ repo +:+ nl);
      match found with
      | File packageLock =>
          match GetContent packageLock with
          | inr err =>
              _ ← printf ("  Error reading package-lock.json content for " +:+ owner
                          +:+ "/" +:+ repo +:+ ": " +:+ Error err +:+ nl);
              mret (true, info)
          | inl content =>
              match json_Unmarshal content with
              | inr err =>
                  _ ← printf ("  Error parsing package-lock.json for " +:+ owner
                              +:+ "/" +:+ repo +:+ ": " +:+ Error err +:+ nl);
                  mret (true, info)
              | inl lockJSON =>
                  info ← checkPackagesForInfection lockJSON info;
                  mret (true, info)
              end
          end
      | _ => Panic []   (* packageLock is nil: GetContent dereferences it *)
      end
  end.

(** [analyzePackageJsonFile], main.go:257 *)
Definition analyzePackageJsonFile (owner repo : string) (info : ActionInfo)
    : outcome ActionInfo :=
  _ ← emit (Request owner repo "package.json");
  match GetContents client owner repo "package.json" with
  | ContentsErr _ =>
      _ ← printf ("  No package.json or package-lock.json found for " +:+ owner
                  +:+ "/" +:+ repo +:+ nl);
      mret info
  | _ =>
      _ ← printf ("  Found package.json (no lock file) for " +:+ owner
                  +:+ "/" +:+ repo +:+ nl);
      mret (set_UsesNpm true info)
  end.

(** [analyzeActionDependencies], main.go:222 *)
Definition analyzeActionDependencies (owner repo : string) (info : ActionInfo)
    : outcome ActionInfo :=
  '(handled, info) ← analyzePackageLockFile owner repo info;
  if handled : bool then mret info
  else analyzePackageJsonFile owner repo info.

(** One turn of the loop of [analyzeActions], main.go:198, at the key
    [actionUse]; the entry is updated in place. *)
Definition analyzeAction (actionUse : string) (usesRepos : usage) : outcome usage :=
  match usesRepos !! actionUse with
  | None => mret usesRepos
  | Some info =>
      if Analyzed info then mret usesRepos
      else
        let '(owner, repo) := parseActionReference actionUse in
        if String.eqb owner "" || String.eqb repo "" then mret usesRepos
        else
          _ ← printf ("Analyzing " +:+ owner +:+ "/" +:+ repo +:+ "..." +:+ nl);
          info ← analyzeActionDependencies owner repo info;
          mret (<[actionUse := set_Analyzed true info]> usesRepos)
  end.

Fixpoint analyzeKeys (order : list string) (usesRepos : usage) : outcome usage :=
  match order with
  | [] => mret usesRepos
  | actionUse :: rest =>
      usesRepos ← analyzeAction actionUse usesRepos;
      analyzeKeys rest usesRepos
  end.

(** [analyzeActions], main.go:195.  [order] is the order in which
    [range] hands out the keys of the mapping. *)
Definition analyzeActions (order : list string) (usesRepos : usage) : outcome usage :=
  _ ← printf (nl +:+ "Analyzing actions..." +:+ nl);
  analyzeKeys order usesRepos.

(** [range] over a repository set: every member once, in an order of
    the run's choosing. *)
Definition set_range : Type := ∀ S : gset string, {l : list string | l ≡ₚ elements S}.

Definition elements_range : set_range :=
  λ S, exist _ (elements S) (Permutation_refl (elements S)).

(** The lines [printResults] writes for one entry, main.go:338; the last
    loop ranges over [info.Repos]. *)
Definition printEntry (repo_order : set_range) (use : string) (info : ActionInfo)
    : list event :=
  [Stdout (use +:+ ":" +:+ nl);
   Stdout ("  Uses npm: " +:+ fmt_bool (UsesNpm info) +:+ nl)]
  ++ (if IsInfected info
      then [Stdout ("  " +:+ warning_sign +:+ "  INFECTED: "
                    +:+ fmt_bool (IsInfected info) +:+ nl);
            Stdout ("  Infected packages: " +:+ fmt_strings (InfectedPackages info) +:+ nl)]
      else [Stdout ("  Infected: " +:+ fmt_bool (IsInfected info) +:+ nl)])
  ++ [Stdout ("  Used in repositories:" +:+ nl)]
  ++ ((λ repo, Stdout ("    - " +:+ repo +:+ nl)) <$> proj1_sig (repo_order (Repos info)))
  ++ [Stdout nl].

(** [printResults], main.go:334: nothing but output.  [order] lists the
    keys as [range] hands them out, and [repo_order] is the [range] over
    the repository set of each key. *)
Definition printResults (order : list string) (repo_order : string → set_range)
    (usesRepos : usage) : outcome unit :=
  Done () (Stdout (nl +:+ "Actions and the repositories they are used in:" +:+ nl)
           :: mbind (M := list)
                (λ use, match usesRepos !! use with
                        | Some info => printEntry (repo_order use) use info
                        | None => []
                        end) order).

(** [range] over a Go map visits every key once, in no fixed order. *)
Definition range_order {A} (m : gmap string A) (order : list string) : Prop :=
  order ≡ₚ (map_to_list m).*1.

End Program.

(** [getRequiredEnv], main.go:50; [Getenv] is [os.Getenv]. *)
Definition getRequiredEnv (Getenv : string → string) (key : string) : outcome string :=
  let value := Getenv key in
  if String.eqb value "" then log_fatalf (key +:+ " environment variable is not set")
  else mret value.

(** The orders in which the two [range] loops over the usage mapping and
    the loop over a repository set hand out their keys. *)
Record Ranges : Type := {
  analysis_order : usage → list string;
  report_order : usage → list string;
  repo_order : usage → string → set_range
}.

(** [main], main.go:28, with [createGitHubClient] as [NewClient] applied
    to the token.  The result carries the usage mapping as the run leaves
    it. *)
Definition main (infectedPackages : list string)
    (yaml_Unmarshal json_Unmarshal : string → document + error)
    (Getenv : string → string) (NewClient : string → Client)
    (ranges : Ranges) (fuel : nat) : option (outcome usage) :=
  match getRequiredEnv Getenv "GITHUB_TOKEN" with
  | Fatal o => Some (Fatal o)
  | Panic o => Some (Panic o)
  | Done token o1 =>
      let client := NewClient token in
      match getRequiredEnv Getenv "GITHUB_ORG" with
      | Fatal o => Some (Fatal (o1 ++ o))
      | Panic o => Some (Panic (o1 ++ o))
      | Done org o2 =>
          scanned ← scanRepositories yaml_Unmarshal client fuel org;
          Some (prepend (o1 ++ o2)
                  (_ ← printf ("Scanning repositories in organization: " +:+ org +:+ nl);
                   usesRepos ← scanned;
                   usesRepos ← analyzeActions infectedPackages json_Unmarshal client
                                 (analysis_order ranges usesRepos) usesRepos;
                   _ ← printResults (report_order ranges usesRepos)
                         (repo_order ranges usesRepos) usesRepos;
                   mret usesRepos))
      end
  end.

(** ** A small organisation to run the program on

    One repository, [app], with one workflow that uses [actor/action@v1],
    the local action [./build] and the bare name [checkout]; the
    repository [actor/action] has a lock file that pins [left-pad] 1.3.0. *)

Module Scenario.

Definition registry : list string := ["left-pad@1.3.0"].

Definition workflow_text : string :=
  "jobs: {build: {steps: [{uses: actor/action@v1}, {run: make}, {uses: ./build}, {uses: checkout}]}}".

Definition workflow : document :=
  [("jobs",
    VMap [("build",
           VMap [("steps",
                  VSeq [VMap [("uses", VStr "actor/action@v1")];
                        VMap [("run", VStr "make")];
                        VMap [("uses", VStr "./build")];
                        VMap [("uses", VStr "checkout")]])])])].

Definition lock_text : string := "<package-lock.json of actor/action>".

Definition lockJSON : document :=
  [("name", VStr "action");
   ("lockfileVersion", VNum "3");
   ("packages",
    VMap [("", VMap [("name", VStr "action"); ("version", VStr "1.0.0")]);
          ("node_modules/left-pad", VMap [("version", VStr "1.3.0")]);
          ("node_modules/@actions/core", VMap [("version", VStr "1.10.0")])])].

Definition yaml_Unmarshal (text : string) : document + error :=
  if String.eqb text workflow_text then inl workflow
  else inr (OtherError "yaml: unmarshal errors").

Definition json_Unmarshal (text : string) : document + error :=
  if String.eqb text lock_text then inl lockJSON
  else inr (OtherError "invalid character").

Definition ci_yml : RepositoryContent :=
  {| GetType := "file"; GetName := "ci.yml"; GetPath := ".github/workflows/ci.yml";
     GetContent := inl workflow_text |}.

Definition lock_file : RepositoryContent :=
  {| GetType := "file"; GetName := "package-lock.json"; GetPath := "package-lock.json";
     GetContent := inl lock_text |}.

Definition not_found : contents := ContentsErr (ErrorResponse 404 "404 Not Found").

(** The lock file of [actor/action] as the server of each variant of the
    scenario answers for it; everything else is the same. *)
Definition server (lock package_json : contents) : Client :=
  {| ListByOrg := λ org page, Page ["app"] 0;
     GetContents := λ owner repo path,
       if String.eqb repo "app" then
         if String.eqb path ".github/workflows" then Directory [ci_yml]
         else if String.eqb path ".github/workflows/ci.yml" then File ci_yml
         else not_found
       else if String.eqb owner "actor" && String.eqb repo "action" then
         if String.eqb path "package-lock.json" then lock
         else if String.eqb path "package.json" then package_json
         else not_found
       else not_found |}.

Definition client : Client := server (File lock_file) not_found.

Definition Getenv (key : string) : string :=
  if String.eqb key "GITHUB_TOKEN" then "token"
  else if String.eqb key "GITHUB_ORG" then "org" else "".

Definition ranges : Ranges :=
  {| analysis_order := λ m, (map_to_list m).*1;
     report_order := λ m, (map_to_list m).*1;
     repo_order := λ m use, elements_range |}.

(** The mapping and the output of the scan (no request of the scan
    goes to [actor/action], so they are the same for every variant), and
    an order for the loop of the analysis. *)
Definition scan_result : option (outcome usage) :=
  Eval vm_compute in scanRepositories yaml_Unmarshal client 1 "org".

Definition scanned : usage :=
  match scan_result with Some (Done m _) => m | _ => ∅ end.

Definition scan_output : list event :=
  match scan_result with Some (Done _ o) => o | _ => [] end.

Definition order : list string := (map_to_list scanned).*1.

(** An action repository without a lock file but with a [package.json]. *)
Definition package_json : RepositoryContent :=
  {| GetType := "file"; GetName := "package.json"; GetPath := "package.json";
     GetContent := inl "<package.json of actor/action>" |}.

Definition client_package_json : Client := server not_found (File package_json).

(** An action repository whose lock file is not JSON. *)
Definition broken_lock_file : RepositoryContent :=
  {| GetType := "file"; GetName := "package-lock.json"; GetPath := "package-lock.json";
     GetContent := inl "<<<<<<< HEAD" |}.

Definition client_broken_lock : Client := server (File broken_lock_file) (File package_json).

(** The analysis of the scanned mapping against each variant. *)
Definition final (r : outcome usage) : usage :=
  match r with Done m _ => m | _ => ∅ end.

Definition analysis (c : Client) : outcome usage :=
  analyzeActions registry json_Unmarshal c order scanned.

Definition result_lock : outcome usage := Eval vm_compute in analysis client.
Definition result_package_json : outcome usage :=
  Eval vm_compute in analysis client_package_json.
Definition result_broken_lock : outcome usage :=
  Eval vm_compute in analysis client_broken_lock.

(** The entries that the runs end with. *)
Definition infected_entry : ActionInfo :=
  {| Repos := {["app"]}; UsesNpm := true; IsInfected := true;
     InfectedPackages := ["left-pad@1.3.0"]; Analyzed := true |}.

Definition npm_entry : ActionInfo :=
  {| Repos := {["app"]}; UsesNpm := true; IsInfected := false;
     InfectedPackages := []; Analyzed := true |}.

Definition skipped_entry : ActionInfo :=
  {| Repos := {["app"]}; UsesNpm := false; IsInfected := false;
     InfectedPackages := []; Analyzed := false |}.

(** A server that answers every request for contents with status 500. *)
Definition client_500 : Client :=
  {| ListByOrg := λ org page, Page ["app"] 0;
     GetContents := λ owner repo path,
       ContentsErr (ErrorResponse 500 "500 Internal Server Error") |}.

End Scenario.

(** ** Servers that fail *)

Module Failures.

(** The listing of the repositories times out. *)
Definition client_no_listing : Client :=
  {| ListByOrg := λ org page, ListErr (OtherError "dial tcp: i/o timeout");
     GetContents := λ owner repo path, Scenario.not_found |}.

(** The workflow directory lists [ci.yml] as a file, and the request
    for it is answered with a directory listing. *)
Definition client_directory : Client :=
  {| ListByOrg := λ org page, Page ["app"] 0;
     GetContents := λ owner repo path,
       if String.eqb path ".github/workflows" then Directory [Scenario.ci_yml]
       else Directory [] |}.

(** Two pages of repositories; [lib] has no workflow directory. *)
Definition client_two_pages : Client :=
  {| ListByOrg := λ org page,
       if page =? 0 then Page ["app"] 2 else Page ["lib"] 0;
     GetContents := λ owner repo path,
       if String.eqb repo "app" then
         if String.eqb path ".github/workflows" then Directory [Scenario.ci_yml]
         else if String.eqb path ".github/workflows/ci.yml" then File Scenario.ci_yml
         else Scenario.not_found
       else Scenario.not_found |}.

Definition two_pages_scan : outcome usage :=
  Eval vm_compute in
    default (Panic []) (scanRepositories Scenario.yaml_Unmarshal client_two_pages 2 "org").

End Failures.

(** ** A job identifier that is not a string *)

Module NonStringKey.

Definition workflow_text : string :=
  "jobs: {1: {steps: []}, build: {steps: [{uses: c/d@v1}]}}".

(** The key [1] is an integer, so the mapping under [jobs] is decoded
    as a [map[interface{}]interface{}]. *)
Definition workflow : document :=
  [("jobs",
    VMapAny [(VNum "1", VMap [("steps", VSeq [])]);
             (VStr "build", VMap [("steps", VSeq [VMap [("uses", VStr "c/d@v1")]])])])].

Definition yaml_Unmarshal (text : string) : document + error :=
  if String.eqb text workflow_text then inl workflow
  else inr (OtherError "yaml: unmarshal errors").

End NonStringKey.

(** ** One action at two versions *)

Module Versions.

Definition workflow_text : string :=
  "jobs: {test: {steps: [{uses: actor/action@v1}]}, release: {steps: [{uses: actor/action@v2}]}}".

Definition workflow : document :=
  [("jobs",
    VMap [("test", VMap [("steps", VSeq [VMap [("uses", VStr "actor/action@v1")]])]);
          ("release", VMap [("steps", VSeq [VMap [("uses", VStr "actor/action@v2")]])])])].

(** The same document with the jobs handed out in the other order. *)
Definition workflow_text' : string :=
  "jobs: {release: {steps: [{uses: actor/action@v2}]}, test: {steps: [{uses: actor/action@v1}]}}".

Definition workflow' : document :=
  [("jobs",
    VMap [("release", VMap [("steps", VSeq [VMap [("uses", VStr "actor/action@v2")]])]);
          ("test", VMap [("steps", VSeq [VMap [("uses", VStr "actor/action@v1")]])])])].

Definition yaml_Unmarshal (text : string) : document + error :=
  if String.eqb text workflow_text then inl workflow
  else if String.eqb text workflow_text' then inl workflow'
  else inr (OtherError "yaml: unmarshal errors").

Definition ci_yml : RepositoryContent :=
  {| GetType := "file"; GetName := "ci.yml"; GetPath := ".github/workflows/ci.yml";
     GetContent := inl workflow_text |}.

Definition client : Client :=
  {| ListByOrg := λ org page, Page ["app"] 0;
     GetContents := λ owner repo path,
       if String.eqb repo "app" then
         if String.eqb path ".github/workflows" then Directory [ci_yml]
         else if String.eqb path ".github/workflows/ci.yml" then File ci_yml
         else Scenario.not_found
       else if String.eqb owner "actor" && String.eqb repo "action" then
         if String.eqb path "package-lock.json" then File Scenario.lock_file
         else Scenario.not_found
       else Scenario.not_found |}.

Definition scan : outcome usage :=
  Eval vm_compute in default (Panic []) (scanRepositories yaml_Unmarshal client 1 "org").

Definition order : list string := (map_to_list (Scenario.final scan)).*1.

End Versions.

(** ** One lock file, ranged over in two orders *)

Module Orders.

Definition registry : list string := ["left-pad@1.3.0"; "@actions/core@1.10.0"].

(** The decoding of the lock file of [Scenario], with the entries of
    [packages] in the opposite order. *)
Definition lockJSON' : document :=
  [("name", VStr "action");
   ("lockfileVersion", VNum "3");
   ("packages",
    VMap [("node_modules/@actions/core", VMap [("version", VStr "1.10.0")]);
          ("node_modules/left-pad", VMap [("version", VStr "1.3.0")]);
          ("", VMap [("name", VStr "action"); ("version", VStr "1.0.0")])])].

Definition json_Unmarshal' (text : string) : document + error :=
  if String.eqb text Scenario.lock_text then inl lockJSON'
  else inr (OtherError "invalid character").

Definition analysis : outcome usage :=
  Eval vm_compute in
    analyzeActions registry Scenario.json_Unmarshal Versions.client Versions.order
      (Scenario.final Versions.scan).




End Orders.

(** ** Vocabulary of the properties *)

(** What holds of the result when a computation runs to its end. *)
Definition post {A} (Q : A → Prop) (m : outcome A) : Prop :=
  match m with Done a _ => Q a | Fatal _ | Panic _ => True end.

(** The entries of a YAML mapping, whatever the types of its keys. *)
Definition mapping_entries (v : value) : option (list (value * value)) :=
  match v with
  | VMap entries => Some (prod_map VStr id <$> entries)
  | VMapAny entries => Some entries
  | _ => None
  end.

(** [uses] is the string [uses] field of a step of the [steps] sequence
    of a job of the [jobs] mapping, for mappings with keys of any type. *)
Definition declares_uses (workflow : document) (uses : string) : Prop :=
  ∃ jobs id job fields steps step sfields,
    mapping_entries (index workflow "jobs") = Some jobs ∧ (id, job) ∈ jobs
    ∧ mapping_entries job = Some fields ∧ (VStr "steps", VSeq steps) ∈ fields
    ∧ step ∈ steps
    ∧ mapping_entries step = Some sfields ∧ (VStr "uses", VStr uses) ∈ sfields.

(** [uses] is the string [uses] field of a step of a job of the document,
    where the [jobs] mapping, the job and the step are mappings with
    string keys only ([map[string]interface{}]). *)
Definition uses_in (workflow : document) (uses : string) : Prop :=
  ∃ jobs id job steps step,
    index workflow "jobs" = VMap jobs ∧ (id, VMap job) ∈ jobs
    ∧ index job "steps" = VSeq steps ∧ VMap step ∈ steps
    ∧ index step "uses" = VStr uses.

(** The [uses] strings in the order in which the loops of
    [processJobSteps] and [extractActionsFromWorkflow] come across them. *)
Definition step_uses (step : value) : list string :=
  match as_map step with
  | Some stepMap =>
      match as_string (index stepMap "uses") with Some uses => [uses] | None => [] end
  | None => []
  end.

Definition job_uses (job : value) : list string :=
  match as_map job with
  | Some jobMap =>
      match as_seq (index jobMap "steps") with
      | Some steps => steps ≫= step_uses
      | None => []
      end
  | None => []
  end.

Definition workflow_uses (workflow : document) : list string :=
  match as_map (index workflow "jobs") with
  | Some jobs => jobs ≫= (λ job, job_uses job.2)
  | None => []
  end.

(** The entry after [repoName] has been put into its repository set. *)
Definition with_repo (repoName : string) (info : ActionInfo) : ActionInfo :=
  set_Repos ({[repoName]} ∪ Repos info) info.

(** [s] is the [name@version] of an entry of [packages] that has a
    non-empty path and a string [version], and it is in the registry. *)
Definition pinned_infected (infectedPackages : list string)
    (packages : document) (s : string) : Prop :=
  ∃ pkgPath pkgData version,
    (pkgPath, VMap pkgData) ∈ packages ∧ pkgPath ≠ ""
    ∧ index pkgData "version" = VStr version
    ∧ s = extractPackageName pkgPath +:+ "@" +:+ version
    ∧ s ∈ infectedPackages.

(** The same, entry by entry and in the words of the specification:
    skip the root path and the entries without a string [version], form
    [name@version], keep it when it is in the registry. *)
Definition infected_pin (infectedPackages : list string)
    (entry : string * value) : option string :=
  match entry with
  | (pkgPath, VMap pkgData) =>
      match index pkgData "version" with
      | VStr version =>
          let fullPkg := extractPackageName pkgPath +:+ "@" +:+ version in
          if bool_decide (pkgPath ≠ "" ∧ fullPkg ∈ infectedPackages)
          then Some fullPkg else None
      | _ => None
      end
  | _ => None
  end.

Definition infection_consistent (info : ActionInfo) : Prop :=
  IsInfected info = true ↔ InfectedPackages info ≠ [].

(** The findings of an entry that the analysis has not touched. *)
Definition fresh (info : ActionInfo) : Prop :=
  UsesNpm info = false ∧ IsInfected info = false
  ∧ InfectedPackages info = [] ∧ Analyzed info = false.

(** The test of main.go:204, negated: the reference has an owner and a
    repository name. *)
Definition well_formed (actionUse : string) : bool :=
  let '(owner, repo) := parseActionReference actionUse in
  negb (String.eqb owner "" || String.eqb repo "").

Definition lock_path : string := "package-lock.json".

(** The line that announces a lock file. *)
Definition found_lock_line (owner repo : string) : event :=
  Stdout ("  Found package-lock.json for " +:+ owner +:+ "/" +:+ repo +:+ nl).

(** The owner and the repository name that [analyzeActions] looks up
    for a key. *)
Definition owner_of (actionUse : string) : string := (parseActionReference actionUse).1.
Definition repo_of (actionUse : string) : string := (parseActionReference actionUse).2.

(** The lock file was fetched, and its content does not decode, or is
    not JSON, or has no [packages] mapping. *)
Definition no_packages (json_Unmarshal : string → document + error)
    (packageLock : RepositoryContent) : Prop :=
  match GetContent packageLock with
  | inr _ => True
  | inl content =>
      match json_Unmarshal content with
      | inr _ => True
      | inl lockJSON => as_map (index lockJSON "packages") = None
      end
  end.

(** The usage mapping that the loop over a page leaves behind. *)
Definition flow_usage (f : page_flow) : usage :=
  match f with Returned m | Next _ m => m end.

(** Every entry is still there, with at least the repositories it had. *)
Definition grows (m m' : usage) : Prop :=
  ∀ k i, m !! k = Some i → ∃ i', m' !! k = Some i' ∧ Repos i ⊆ Repos i'.

(** The last piece of the left-to-right split of a string on
    [/node_modules/]: the string itself when it holds no separator, and
    else the last piece of what follows the first separator. *)
Inductive last_piece : string → string → Prop :=
| last_piece_whole s :
    Strings.Contains s node_modules_sep = false → last_piece s s
| last_piece_cut s x rest y :
    s = x +:+ node_modules_sep +:+ rest →
    Strings.Index s node_modules_sep = Some (String.length x) →
    last_piece rest y → last_piece s y.

(** How a computation may end other than by returning: [F] when it exits
    through [log.Fatalf], [P] when it panics. *)
Definition ends {A} (F P : Prop) (m : outcome A) : Prop :=
  match m with Done _ _ => True | Fatal _ => F | Panic _ => P end.

(** The findings of the analysis in an entry. *)
Definition findings (info : ActionInfo) : bool * bool * list string :=
  (UsesNpm info, IsInfected info, InfectedPackages info).




(** The pages that the paging loop comes to when it starts at [start]:
    it goes on to [NextPage] as long as that is not 0. *)
Inductive follows (client : Client) (org : string) (start : Z) : Z → Prop :=
| follows_here : follows client org start start
| follows_next repos next page :
    ListByOrg client org start = Page repos next → next ≠ 0 →
    follows client org next page → follows client org start page.

(** * Properties *)

(** ** Facts about the string functions *)

Module StringFacts.
Import Strings.

#[local] Arguments String.append !_ _ / : simpl nomatch.

Lemma app_assoc (a b c : string) : (a +:+ b) +:+ c = a +:+ b +:+ c.
Proof. induction a as [|ch a IH]; simpl; [done | by rewrite IH]. Qed.

Lemma app_nil_r (a : string) : a +:+ "" = a.
Proof. induction a as [|ch a IH]; simpl; [done | by rewrite IH]. Qed.

Lemma length_app (a b : string) :
  String.length (a +:+ b) = (String.length a + String.length b)%nat.
Proof. induction a as [|ch a IH]; simpl; [done | by rewrite IH]. Qed.

Lemma drop_app (a b : string) : drop (String.length a) (a +:+ b) = b.
Proof. induction a as [|ch a IH]; simpl; [by destruct b | done]. Qed.

Lemma take_app (a b : string) : take (String.length a) (a +:+ b) = a.
Proof. induction a as [|ch a IH]; simpl; [by destruct b | by rewrite IH]. Qed.

Lemma take_drop (n : nat) (s : string) : take n s +:+ drop n s = s.
Proof.
  revert s; induction n as [|n IH]; intros [|ch s]; simpl; try done.
  by rewrite IH.
Qed.

Lemma drop_drop (n m : nat) (s : string) : drop m (drop n s) = drop (n + m) s.
Proof.
  revert s; induction n as [|n IH]; intros s; simpl; [done|].
  destruct s; simpl; [by destruct m | apply IH].
Qed.

Lemma length_take_le (n : nat) (s : string) :
  (n ≤ String.length s)%nat → String.length (take n s) = n.
Proof.
  revert s; induction n as [|n IH]; intros [|ch s]; simpl; try done; try lia.
  intros Hn. rewrite IH; [done | lia].
Qed.

Lemma HasPrefix_app (p s : string) : HasPrefix (p +:+ s) p = true.
Proof. induction p as [|ch p IH]; simpl; [done|]. by rewrite Ascii.eqb_refl. Qed.

Lemma HasPrefix_inv (s p : string) : HasPrefix s p = true → s = p +:+ drop (String.length p) s.
Proof.
  revert s; induction p as [|ch p IH]; intros s; simpl; [done|].
  destruct s as [|c s]; [done|].
  destruct (Ascii.eqb_spec c ch) as [->|]; [|done].
  intros H. by rewrite <-(IH s H).
Qed.

Lemma HasPrefix_true (s p : string) : HasPrefix s p = true ↔ ∃ t, s = p +:+ t.
Proof.
  split.
  - intros H. eexists. by apply HasPrefix_inv.
  - intros [t ->]. apply HasPrefix_app.
Qed.

(** A string splits in one way only at a given length. *)
Lemma app_eq_le (a x s t : string) :
  a +:+ s = x +:+ t → (String.length a ≤ String.length x)%nat →
  ∃ u, x = a +:+ u ∧ s = u +:+ t.
Proof.
  revert x; induction a as [|ch a IH]; intros x; simpl.
  - intros -> _. by exists x.
  - destruct x as [|c x]; simpl; [lia|].
    intros [= -> Heq] Hle. destruct (IH x Heq) as (u & -> & ->); [lia|].
    by exists u.
Qed.

Lemma app_inv_length (a x s t : string) :
  a +:+ s = x +:+ t → String.length a = String.length x → a = x ∧ s = t.
Proof.
  intros Heq Hlen. destruct (app_eq_le a x s t Heq) as (u & -> & ->); [lia|].
  rewrite length_app in Hlen. destruct u; simpl in *; [|lia].
  by rewrite app_nil_r.
Qed.

(** [Index] finds an occurrence, and the first one. *)
Lemma Index_Some (s sep : string) (m : nat) :
  Index s sep = Some m →
  s = take m s +:+ sep +:+ drop (m + String.length sep) s ∧ (m ≤ String.length s)%nat.
Proof.
  revert m; induction s as [|c s IH]; intros m; simpl.
  - destruct (HasPrefix "" sep) eqn:Hp; [|done].
    intros [= <-]. simpl. split; [by apply HasPrefix_inv | lia].
  - destruct (HasPrefix (String c s) sep) eqn:Hp.
    + intros [= <-]. split; [by apply HasPrefix_inv | lia].
    + destruct (Index s sep) as [m'|] eqn:Hi; [|done].
      intros [= <-]. destruct (IH m' eq_refl) as [Heq Hle].
      simpl. split; [by rewrite <-Heq | lia].
Qed.

Lemma Index_prefix (s sep : string) : HasPrefix s sep = true → Index s sep = Some O.
Proof. intros H. destruct s; simpl; by rewrite H. Qed.

Lemma Index_first (x y sep : string) :
  ∃ m, Index (x +:+ sep +:+ y) sep = Some m ∧ (m ≤ String.length x)%nat.
Proof.
  induction x as [|c x IH]; simpl.
  - exists O. split; [|done]. apply Index_prefix, HasPrefix_app.
  - destruct IH as (m & Hm & Hle).
    destruct (HasPrefix (String c (x +:+ sep +:+ y)) sep).
    + exists O. split; [done | lia].
    + exists (S m). rewrite Hm. split; [done | lia].
Qed.

Lemma Contains_app (x y sep : string) : Contains (x +:+ sep +:+ y) sep = true.
Proof. unfold Contains. by destruct (Index_first x y sep) as (m & -> & _). Qed.

Lemma Contains_false (s sep : string) :
  Contains s sep = false ↔ Index s sep = None.
Proof. unfold Contains. by destruct (Index s sep). Qed.

Lemma HasSuffix_app (a suffix : string) : HasSuffix (a +:+ suffix) suffix = true.
Proof.
  unfold HasSuffix. rewrite length_app.
  replace (String.length a + String.length suffix - String.length suffix)%nat
    with (String.length a) by lia.
  rewrite drop_app, String.eqb_refl, andb_true_r.
  apply Nat.leb_le. lia.
Qed.

Lemma HasSuffix_inv (s suffix : string) :
  HasSuffix s suffix = true → ∃ a, s = a +:+ suffix.
Proof.
  unfold HasSuffix. intros [_ Heq%String.eqb_eq]%andb_true_iff.
  exists (take (String.length s - String.length suffix) s).
  pose proof (take_drop (String.length s - String.length suffix) s) as H.
  by rewrite Heq in H.
Qed.

Lemma genSplit_no_sep (n : nat) (s sep : string) :
  Index s sep = None → genSplit n s sep = [s].
Proof. intros H. destruct n; simpl; [done | by rewrite H]. Qed.

Lemma genSplit_cut (n m : nat) (s sep : string) :
  Index s sep = Some m →
  genSplit (S n) s sep = take m s :: genSplit n (drop (m + String.length sep) s) sep.
Proof. intros H. simpl. by rewrite H. Qed.

(** Two occurrences of [/node_modules/] overlap in one way only: the
    closing slash of the first is the opening slash of the second. *)
Lemma sep_overlap (u v b y : string) :
  u +:+ v = node_modules_sep → u ≠ "" → v ≠ "" →
  v +:+ b = node_modules_sep +:+ y → u = "/node_modules".
Proof.
  unfold node_modules_sep. intros Huv Hu Hv Hvb.
  destruct u as [|c u]; [done|].
  do 13 (injection Huv as -> Huv;
         destruct u as [|c u];
         [ simpl in Huv; subst v; try done; by injection Hvb | ]).
  injection Huv as -> Huv. destruct u; [|done]. simpl in Huv. by subst v.
Qed.

(** The last piece of the split is what follows the last separator,
    as long as that separator does not share its opening slash with an
    occurrence before it. *)
Lemma genSplit_last (n : nat) (x y : string) :
  (String.length (x +:+ node_modules_sep +:+ y) ≤ n)%nat →
  Contains y node_modules_sep = false →
  HasSuffix x "/node_modules" = false →
  ∃ l, genSplit n (x +:+ node_modules_sep +:+ y) node_modules_sep = l ++ [y] ∧ l ≠ [].
Proof.
  revert x; induction n as [|n IH]; intros x Hlen Hy Hx.
  { rewrite !length_app in Hlen. simpl in Hlen. lia. }
  destruct (Index_first x y node_modules_sep) as (m & Hm & Hle).
  rewrite (genSplit_cut _ _ _ _ Hm).
  destruct (Index_Some _ _ _ Hm) as [Hs Hms].
  pose proof (length_take_le m _ Hms) as Ha.
  set (a := take m _) in *.
  set (b := drop (m + String.length node_modules_sep) _) in *.
  clearbody a b. clear Hm Hms.
  destruct (decide (m = String.length x)) as [Heq|Hne].
  - destruct (app_inv_length a x _ _ (eq_sym Hs)) as [-> Hb]; [lia|].
    apply app_inv_length in Hb as [_ ->]; [|done].
    exists [x]. split; [|done].
    by rewrite genSplit_no_sep by (by apply Contains_false).
  - destruct (app_eq_le a x _ _ (eq_sym Hs)) as (u & Hxu & Hu); [lia|].
    assert (u ≠ "") as Hune.
    { intros ->. rewrite app_nil_r in Hxu. subst x. lia. }
    destruct (decide (String.length node_modules_sep ≤ String.length u)%nat) as [Hlu|Hlu].
    + destruct (app_eq_le node_modules_sep u b (node_modules_sep +:+ y) Hu Hlu)
        as (w & -> & Hb).
      destruct (IH w) as (l & Hl & _).
      * subst x. rewrite !length_app in Hlen. rewrite !length_app. simpl in *. lia.
      * done.
      * destruct (HasSuffix w "/node_modules") eqn:Hw; [|done].
        apply HasSuffix_inv in Hw as [w' ->].
        rewrite Hxu, <-!app_assoc, HasSuffix_app in Hx. done.
      * exists (a :: l). rewrite Hb, Hl. done.
    + destruct (app_eq_le u node_modules_sep (node_modules_sep +:+ y) b (eq_sym Hu))
        as (v & Hsep & Hvb); [lia|].
      assert (v ≠ "") as Hvne.
      { intros ->. rewrite app_nil_r in Hsep. subst u. lia. }
      rewrite (sep_overlap u v b y (eq_sym Hsep) Hune Hvne (eq_sym Hvb)) in Hxu.
      by rewrite Hxu, HasSuffix_app in Hx.
Qed.

End StringFacts.

(** ** The registry check *)

Lemma isInfectedPackage_elem (infectedPackages : list string) (fullPkg : string) :
  isInfectedPackage infectedPackages fullPkg = true ↔ fullPkg ∈ infectedPackages.
Proof.
  induction infectedPackages as [|infectedPkg rest IH]; simpl.
  - split; [done | by intros ?%not_elem_of_nil].
  - rewrite elem_of_cons, <-IH.
    destruct (String.eqb_spec fullPkg infectedPkg) as [->|Hne]; [by split; [left|] |].
    split; [by right | by intros [?|?]].
Qed.

(** C6.  The registry check is exact string equality: [isInfectedPackage]
    answers true for a candidate if and only if that very string is in
    the registry; [lodash@4.17.21] does not match a registry that holds
    only [lodash@4.17.20]. *)
Theorem isInfectedPackage_exact :
  (∀ (infectedPackages : list string) (fullPkg : string),
     isInfectedPackage infectedPackages fullPkg = true ↔ fullPkg ∈ infectedPackages)
  ∧ isInfectedPackage ["lodash@4.17.20"] "lodash@4.17.20" = true
  ∧ isInfectedPackage ["lodash@4.17.20"] "lodash@4.17.21" = false.
Proof. split; [apply isInfectedPackage_elem | by split]. Qed.

(** ** Package names *)

Lemma Split_node_modules (s : string) :
  Strings.Split s node_modules_sep = Strings.genSplit (String.length s) s node_modules_sep.
Proof. reflexivity. Qed.

Lemma extractPackageName_no_sep (pkgPath : string) :
  Strings.Contains (Strings.TrimPrefix pkgPath node_modules_prefix) node_modules_sep = false →
  extractPackageName pkgPath = Strings.TrimPrefix pkgPath node_modules_prefix.
Proof.
  intros H. unfold extractPackageName.
  destruct (_ && _); [done|].
  rewrite Split_node_modules.
  rewrite StringFacts.genSplit_no_sep by (by apply StringFacts.Contains_false).
  done.
Qed.

Lemma extractPackageName_nested (pkgPath x y : string) :
  Strings.TrimPrefix pkgPath node_modules_prefix = x +:+ node_modules_sep +:+ y →
  Strings.Contains y node_modules_sep = false →
  Strings.HasSuffix x "/node_modules" = false →
  extractPackageName pkgPath = y.
Proof.
  intros Hr Hy Hx. unfold extractPackageName. rewrite Hr.
  rewrite StringFacts.Contains_app, andb_false_r.
  rewrite Split_node_modules.
  destruct (StringFacts.genSplit_last _ x y (le_n _) Hy Hx) as (l & -> & Hl).
  rewrite length_app, last_last.
  destruct l; [done|]. simpl. by rewrite Nat.add_1_r.
Qed.

Lemma last_piece_unique s y y' : last_piece s y → last_piece s y' → y = y'.
Proof.
  intros H. revert y'. induction H as [s Hs|s x rest y Hs Hi Hrest IH]; intros y' H'.
  - destruct H' as [s _|s x rest y' -> _ _]; [done|].
    by rewrite StringFacts.Contains_app in Hs.
  - destruct H' as [s Hc|s x' rest' y' Hs' Hi' Hrest'].
    + by rewrite Hs, StringFacts.Contains_app in Hc.
    + rewrite Hi in Hi'. injection Hi' as Hlen. rewrite Hs in Hs'.
      apply StringFacts.app_inv_length in Hs' as [-> Hs']; [|done].
      apply StringFacts.app_inv_length in Hs' as [_ ->]; [|done].
      by apply IH.
Qed.

Lemma genSplit_not_nil n s sep : Strings.genSplit n s sep ≠ [].
Proof. destruct n; simpl; [done|]. by destruct (Strings.Index s sep). Qed.

Lemma genSplit_last_piece n s d :
  (String.length s ≤ n)%nat →
  last_piece s (List.last (Strings.genSplit n s node_modules_sep) d).
Proof.
  revert s; induction n as [|n IH]; intros s Hn.
  - destruct s; [|simpl in Hn; lia]. by apply last_piece_whole.
  - destruct (Strings.Index s node_modules_sep) as [m|] eqn:Hm.
    + rewrite (StringFacts.genSplit_cut _ _ _ _ Hm).
      destruct (StringFacts.Index_Some _ _ _ Hm) as [Hs Hle].
      pose proof (StringFacts.length_take_le m s Hle) as Hlen.
      set (rest := Strings.drop (m + String.length node_modules_sep) s) in *.
      assert (String.length rest ≤ n)%nat as Hrest.
      { rewrite Hs, !StringFacts.length_app in Hn. simpl in Hn. lia. }
      specialize (IH rest Hrest).
      pose proof (genSplit_not_nil n rest node_modules_sep) as Hne.
      destruct (Strings.genSplit n rest node_modules_sep) as [|p l]; [done|].
      change (List.last (Strings.take m s :: p :: l) d) with (List.last (p :: l) d).
      eapply last_piece_cut; [exact Hs | by rewrite Hlen | exact IH].
    + rewrite StringFacts.genSplit_no_sep by done. apply last_piece_whole.
      by apply StringFacts.Contains_false.
Qed.

Lemma extractPackageName_last_piece pkgPath :
  last_piece (Strings.TrimPrefix pkgPath node_modules_prefix) (extractPackageName pkgPath).
Proof.
  destruct (Strings.Contains (Strings.TrimPrefix pkgPath node_modules_prefix)
              node_modules_sep) eqn:Hc.
  2:{ rewrite extractPackageName_no_sep by done. by apply last_piece_whole. }
  unfold extractPackageName.
  set (pkgName := Strings.TrimPrefix pkgPath node_modules_prefix) in *.
  rewrite Hc, andb_false_r, Split_node_modules.
  pose proof (genSplit_last_piece (String.length pkgName) pkgName pkgName (le_n _)) as Hlast.
  assert ((1 <? length (Strings.genSplit (String.length pkgName) pkgName node_modules_sep))%nat
          = true) as ->; [|exact Hlast].
  unfold Strings.Contains in Hc.
  destruct (Strings.Index pkgName node_modules_sep) as [m|] eqn:Hm; [|done].
  destruct (StringFacts.Index_Some _ _ _ Hm) as [Hs _].
  destruct (String.length pkgName) as [|n] eqn:Hn.
  { rewrite Hs, !StringFacts.length_app in Hn. simpl in Hn. lia. }
  rewrite (StringFacts.genSplit_cut _ _ _ _ Hm).
  pose proof (genSplit_not_nil n
                (Strings.drop (m + String.length node_modules_sep) pkgName)
                node_modules_sep) as Hne.
  by destruct (Strings.genSplit n _ _).
Qed.

(** C7, as amended.  [extractPackageName] strips one leading
    [node_modules/]; it returns the remainder as it is when the remainder
    holds no [/node_modules/] (the scoped names [@scope/pkg] among them),
    and otherwise the last piece of the left-to-right split of the
    remainder on [/node_modules/], which is determined by the remainder
    and is what follows the last [/node_modules/] when that separator
    does not share its opening slash with an occurrence before it (the
    text before it does not end in [/node_modules]).  The three paths of
    the specification come out as [@scope/pkg], [b] and [simple]. *)
Theorem extractPackageName_spec (pkgPath : string) :
  let pkgName := Strings.TrimPrefix pkgPath node_modules_prefix in
  (∀ rest, pkgPath = node_modules_prefix +:+ rest → pkgName = rest)
  ∧ (Strings.HasPrefix pkgPath node_modules_prefix = false → pkgName = pkgPath)
  ∧ (Strings.HasPrefix pkgName "@" = true → Strings.Contains pkgName "/" = true →
     Strings.Contains pkgName node_modules_sep = false →
     extractPackageName pkgPath = pkgName)
  ∧ (Strings.Contains pkgName node_modules_sep = false →
     extractPackageName pkgPath = pkgName)
  ∧ (∀ x y, pkgName = x +:+ node_modules_sep +:+ y →
       Strings.Contains y node_modules_sep = false →
       Strings.HasSuffix x "/node_modules" = false →
       extractPackageName pkgPath = y)
  ∧ last_piece pkgName (extractPackageName pkgPath)
  ∧ (∀ y, last_piece pkgName y → extractPackageName pkgPath = y)
  ∧ extractPackageName "node_modules/@scope/pkg" = "@scope/pkg"
  ∧ extractPackageName "node_modules/a/node_modules/b" = "b"
  ∧ extractPackageName "node_modules/simple" = "simple".
Proof.
  intros pkgName. subst pkgName.
  split; [|split; [|split; [|split; [|split; [|split; [|split; [|by repeat split]]]]]]].
  - intros rest ->. unfold Strings.TrimPrefix.
    rewrite StringFacts.HasPrefix_app. apply StringFacts.drop_app.
  - intros H. unfold Strings.TrimPrefix. by rewrite H.
  - intros _ _. apply extractPackageName_no_sep.
  - apply extractPackageName_no_sep.
  - apply extractPackageName_nested.
  - apply extractPackageName_last_piece.
  - intros y Hy. eapply last_piece_unique; [apply extractPackageName_last_piece | exact Hy].
Qed.

Lemma extractPackageName_spec_witness :
  extractPackageName "node_modules/x/node_modules/@scope/pkg" = "@scope/pkg".
Proof.
  apply (extractPackageName_spec "node_modules/x/node_modules/@scope/pkg")
    with (x := "x"); reflexivity.
Defined.

(** Where separators overlap, the last piece of the split still is what
    the function returns. *)
Example extractPackageName_overlapping :
  extractPackageName "node_modules//node_modules/node_modules/node_modules/y" = "y"
  ∧ last_piece "/node_modules/node_modules/node_modules/y" "y".
Proof.
  split; [reflexivity|].
  apply (last_piece_cut _ "" "node_modules/node_modules/y"); [reflexivity..|].
  apply (last_piece_cut _ "node_modules" "y"); [reflexivity..|].
  by apply last_piece_whole.
Qed.

(** C7 as stated fails where two separators overlap: in
    [node_modules/a/node_modules/node_modules/b] the last [/node_modules/]
    is followed by [b], and the split, which goes on behind the first
    separator it cuts, yields [node_modules/b]. *)
Lemma extractPackageName_overlap :
  Strings.TrimPrefix "node_modules/a/node_modules/node_modules/b" node_modules_prefix
    = "a/node_modules" +:+ node_modules_sep +:+ "b"
  ∧ Strings.Contains "b" node_modules_sep = false
  ∧ extractPackageName "node_modules/a/node_modules/node_modules/b" = "node_modules/b"
  ∧ extractPackageName "node_modules/a/node_modules/node_modules/b" ≠ "b".
Proof. repeat split. discriminate. Qed.


(** ** Computations that run to their end *)

Lemma post_bind {A B} (Q : B → Prop) (m : outcome A) (f : A → outcome B) :
  post (λ a, post Q (f a)) m → post Q (m ≫= f).
Proof. destruct m as [a o| |]; simpl; [|done..]. by destruct (f a). Qed.

Lemma post_prepend {A} (Q : A → Prop) (o : list event) (m : outcome A) :
  post Q m → post Q (prepend o m).
Proof. by destruct m. Qed.

Lemma post_Done {A} (Q : A → Prop) (m : outcome A) a o : post Q m → m = Done a o → Q a.
Proof. by intros H ->. Qed.

Lemma bind_Done {A B} (m : outcome A) (f : A → outcome B) b o :
  m ≫= f = Done b o → ∃ a o1 o2, m = Done a o1 ∧ f a = Done b o2 ∧ o = o1 ++ o2.
Proof.
  destruct m as [a o1| |]; simpl; [|done..].
  destruct (f a) as [b' o2| |] eqn:Hf; simpl; [|done..].
  intros [= -> <-]. by exists a, o1, o2.
Qed.

Lemma prepend_Done {A} (o : list event) (m : outcome A) a o' :
  prepend o m = Done a o' → ∃ o2, m = Done a o2 ∧ o' = o ++ o2.
Proof. destruct m; simpl; [|done..]. intros [= -> <-]. by eexists. Qed.

(** ** The scanner keeps what [addActionUsage] keeps *)

Section Scanner.

Variable yaml_Unmarshal : string → document + error.
Variable client : Client.
Variable P : usage → Prop.
Hypothesis P_add : ∀ actionUse repoName m, P m → P (addActionUsage actionUse repoName m).

Lemma processStep_keeps repoName m step : P m → P (processStep repoName m step).
Proof.
  intros Hm. unfold processStep.
  destruct (as_map step); [|done]. destruct (as_string _); [|done]. by apply P_add.
Qed.

Lemma processSteps_keeps repoName steps m :
  P m → P (foldl (processStep repoName) m steps).
Proof.
  revert m; induction steps as [|step steps IH]; intros m Hm; simpl; [done|].
  by apply IH, processStep_keeps.
Qed.

Lemma processJobSteps_keeps job repoName m : P m → P (processJobSteps job repoName m).
Proof.
  intros Hm. unfold processJobSteps.
  destruct (as_map job); [|done]. destruct (as_seq _); [|done].
  by apply processSteps_keeps.
Qed.

Lemma processJobs_keeps repoName (jobs : document) m :
  P m → P (foldl (λ usesRepos job, processJobSteps job.2 repoName usesRepos) m jobs).
Proof.
  revert m; induction jobs as [|job jobs IH]; intros m Hm; simpl; [done|].
  by apply IH, processJobSteps_keeps.
Qed.

Lemma extractActionsFromWorkflow_keeps workflowContent repoName m :
  P m → post P (extractActionsFromWorkflow yaml_Unmarshal workflowContent repoName m).
Proof.
  intros Hm. unfold extractActionsFromWorkflow.
  destruct (yaml_Unmarshal workflowContent) as [workflow|err]; [|done].
  destruct (as_map _); [|done]. by apply processJobs_keeps.
Qed.

Lemma processWorkflowFile_keeps org repoName content m :
  P m → post P (processWorkflowFile yaml_Unmarshal client org repoName content m).
Proof.
  intros Hm. unfold processWorkflowFile.
  apply post_bind; simpl.
  destruct (GetContents client org repoName (GetPath content)) as [f|?|?]; [|done..].
  destruct (GetContent f); [|done].
  by apply extractActionsFromWorkflow_keeps.
Qed.

Lemma processContents_keeps org repoName contents m :
  P m → post P (processContents yaml_Unmarshal client org repoName contents m).
Proof.
  revert m; induction contents as [|content rest IH]; intros m Hm; simpl; [done|].
  destruct (isWorkflowFile content); [|by apply IH].
  apply post_bind.
  pose proof (processWorkflowFile_keeps org repoName content m Hm) as H.
  destruct (processWorkflowFile _ _ _ _ _ _); simpl in *; [by apply IH | done..].
Qed.

Lemma processRepository_keeps org repoName m :
  P m → post P (processRepository yaml_Unmarshal client org repoName m).
Proof.
  intros Hm. unfold processRepository. apply post_bind; simpl.
  destruct (GetContents client org repoName workflows_dir) as [?|contents|[]]; try done.
  by apply processContents_keeps.
Qed.

(** The proofs about the two loops do not depend on the configured
    limit: they go through the equations of the loops. *)
Lemma scanPage_cons org repoName rest repoCount m :
  scanPage yaml_Unmarshal client org (repoName :: rest) repoCount m =
  if shouldStopScanning repoCount then
    _ ← printf ("Reached maximum of " +:+ fmt_int maxRepos
                +:+ " repositories for testing." +:+ nl);
    mret (Returned m)
  else
    _ ← logRepoProgress repoCount repoName;
    m' ← processRepository yaml_Unmarshal client org repoName m;
    scanPage yaml_Unmarshal client org rest (wrap_int (repoCount + 1)) m'.
Proof. reflexivity. Qed.

Lemma scanPages_step fuel org page repoCount m :
  scanPages yaml_Unmarshal client (S fuel) org page repoCount m =
  match ListByOrg client org page with
  | ListErr err =>
      Some (Fatal [ListRequest org page;
                   Logged ("Error listing repositories: " +:+ Error err)])
  | Page repos NextPage =>
      match scanPage yaml_Unmarshal client org repos repoCount m with
      | Fatal o => Some (Fatal (ListRequest org page :: o))
      | Panic o => Some (Panic (ListRequest org page :: o))
      | Done (Returned m') o => Some (Done m' (ListRequest org page :: o))
      | Done (Next repoCount' m') o =>
          if shouldStopScanning repoCount' || (NextPage =? 0)
          then Some (Done m' (ListRequest org page :: o))
          else prepend (ListRequest org page :: o)
                 <$> scanPages yaml_Unmarshal client fuel org NextPage repoCount' m'
      end
  end.
Proof. reflexivity. Qed.

Lemma logRepoProgress_Done repoCount repoName :
  ∃ o, logRepoProgress repoCount repoName = Done () o.
Proof. unfold logRepoProgress. destruct enableLimit; by eexists. Qed.

Lemma scanPage_keeps org repos repoCount m :
  P m → post (λ f, P (flow_usage f)) (scanPage yaml_Unmarshal client org repos repoCount m).
Proof.
  revert repoCount m; induction repos as [|repoName rest IH]; intros repoCount m Hm; [done|].
  rewrite scanPage_cons. destruct (shouldStopScanning repoCount); [done|].
  apply post_bind. destruct (logRepoProgress_Done repoCount repoName) as [o ->].
  apply post_bind.
  pose proof (processRepository_keeps org repoName m Hm) as H.
  destruct (processRepository _ _ _ _ _); simpl in *; [by apply IH | done..].
Qed.

Lemma scanPages_keeps fuel org page repoCount m r :
  P m → scanPages yaml_Unmarshal client fuel org page repoCount m = Some r → post P r.
Proof.
  revert page repoCount m r; induction fuel as [|fuel IH]; intros page repoCount m r Hm;
    [done|].
  rewrite scanPages_step.
  destruct (ListByOrg client org page) as [repos NextPage|err]; [|by intros [= <-]].
  pose proof (scanPage_keeps org repos repoCount m Hm) as H.
  destruct (scanPage _ _ _ _ _ _) as [[m'|repoCount' m'] o| |];
    simpl in H; try (by intros [= <-]).
  destruct (_ || _); [by intros [= <-]|].
  destruct (scanPages _ _ _ _ _ _ _) as [r'|] eqn:Hr; [|done].
  intros [= <-]. apply post_prepend. by eapply IH.
Qed.

(** More fuel does not change what the paging loop returns, and one
    unit is enough when the first page is the last. *)
Lemma scanPages_more_fuel fuel org page repoCount m r :
  scanPages yaml_Unmarshal client fuel org page repoCount m = Some r →
  scanPages yaml_Unmarshal client (S fuel) org page repoCount m = Some r.
Proof.
  revert page repoCount m r; induction fuel as [|fuel IH]; intros page repoCount m r; [done|].
  rewrite (scanPages_step (S fuel)), (scanPages_step fuel).
  destruct (ListByOrg client org page) as [repos NextPage|err]; [|done].
  destruct (scanPage _ _ _ _ _ _) as [[m'|repoCount' m'] o| |]; try done.
  destruct (_ || _); [done|].
  destruct (scanPages _ _ fuel _ _ _ _) as [r'|] eqn:Hr; [|done].
  intros [= <-]. by rewrite (IH _ _ _ _ Hr).
Qed.

Lemma scanPages_last_page fuel org page repoCount m repos :
  ListByOrg client org page = Page repos 0 →
  is_Some (scanPages yaml_Unmarshal client (S fuel) org page repoCount m).
Proof.
  intros Hpage. rewrite scanPages_step, Hpage.
  destruct (scanPage _ _ _ _ _ _) as [[m'|repoCount' m'] o| |]; [done| |done..].
  by destruct (shouldStopScanning repoCount').
Qed.

End Scanner.

(** ** Collecting the references of a workflow *)

Lemma as_map_Some v entries : as_map v = Some entries ↔ v = VMap entries.
Proof. destruct v; simpl; split; congruence. Qed.

Lemma as_seq_Some v items : as_seq v = Some items ↔ v = VSeq items.
Proof. destruct v; simpl; split; congruence. Qed.

Lemma as_string_Some v s : as_string v = Some s ↔ v = VStr s.
Proof. destruct v; simpl; split; congruence. Qed.

Lemma with_repo_idemp repoName info :
  with_repo repoName (with_repo repoName info) = with_repo repoName info.
Proof.
  unfold with_repo, set_Repos; simpl. f_equal.
  by rewrite (assoc_L (∪)), union_idemp_L.
Qed.

Lemma addActionUsage_lookup actionUse repoName (m : usage) k :
  addActionUsage actionUse repoName m !! k =
  if decide (k = actionUse)
  then Some (with_repo repoName (default new_ActionInfo (m !! actionUse)))
  else m !! k.
Proof.
  unfold addActionUsage.
  destruct (m !! actionUse) as [info|] eqn:Hm; simpl.
  - rewrite Hm. rewrite lookup_insert. by destruct (decide (actionUse = k)), (decide (k = actionUse)).
  - rewrite lookup_insert_eq, lookup_insert.
    destruct (decide (actionUse = k)), (decide (k = actionUse)); try done.
    by rewrite lookup_insert_ne.
Qed.

Lemma add_all_lookup repoName (us : list string) (m : usage) k :
  foldl (λ m u, addActionUsage u repoName m) m us !! k =
  if decide (k ∈ us)
  then Some (with_repo repoName (default new_ActionInfo (m !! k)))
  else m !! k.
Proof.
  revert m; induction us as [|u us IH]; intros m; cbn [foldl].
  - case_decide as H; [by apply not_elem_of_nil in H | done].
  - rewrite IH, !addActionUsage_lookup.
    destruct (decide (k ∈ us)) as [Hin|Hin], (decide (k = u)) as [->|Hne],
      (decide (_ ∈ _ :: _)) as [Hc|Hc];
      simpl; try done; try (by rewrite with_repo_idemp);
      exfalso; revert Hc; rewrite elem_of_cons; tauto.
Qed.

Section Collect.

Variable repoName : string.

Let add (m : usage) (u : string) : usage := addActionUsage u repoName m.

Lemma processStep_uses m step : processStep repoName m step = foldl add m (step_uses step).
Proof.
  unfold processStep, step_uses.
  destruct (as_map step); [|done]. by destruct (as_string _).
Qed.

Lemma processSteps_uses steps m :
  foldl (processStep repoName) m steps = foldl add m (steps ≫= step_uses).
Proof.
  revert m; induction steps as [|step steps IH]; intros m; simpl; [done|].
  by rewrite foldl_app, IH, processStep_uses.
Qed.

Lemma processJobSteps_uses job m :
  processJobSteps job repoName m = foldl add m (job_uses job).
Proof.
  unfold processJobSteps, job_uses.
  destruct (as_map job); [|done]. destruct (as_seq _); [|done].
  apply processSteps_uses.
Qed.

Lemma processJobs_uses (jobs : document) m :
  foldl (λ usesRepos job, processJobSteps job.2 repoName usesRepos) m jobs
  = foldl add m (jobs ≫= (λ job, job_uses job.2)).
Proof.
  revert m; induction jobs as [|job jobs IH]; intros m; simpl; [done|].
  by rewrite foldl_app, IH, processJobSteps_uses.
Qed.

End Collect.

Lemma extractActionsFromWorkflow_uses yaml_Unmarshal workflowContent repoName m workflow :
  yaml_Unmarshal workflowContent = inl workflow →
  extractActionsFromWorkflow yaml_Unmarshal workflowContent repoName m
  = Done (foldl (λ m u, addActionUsage u repoName m) m (workflow_uses workflow)) [].
Proof.
  intros Hy. unfold extractActionsFromWorkflow, workflow_uses. rewrite Hy.
  destruct (as_map _); [|done]. simpl. by rewrite processJobs_uses.
Qed.

Lemma elem_of_workflow_uses workflow uses :
  uses ∈ workflow_uses workflow ↔ uses_in workflow uses.
Proof.
  unfold workflow_uses, uses_in. split.
  - destruct (as_map _) as [jobs|] eqn:Hjobs; [|by intros ?%not_elem_of_nil].
    apply as_map_Some in Hjobs.
    intros ([id job] & Hu & Hjob)%list_elem_of_bind. simpl in Hu.
    unfold job_uses in Hu.
    destruct (as_map job) as [jobMap|] eqn:Hj; [|by apply not_elem_of_nil in Hu].
    apply as_map_Some in Hj as ->.
    destruct (as_seq _) as [steps|] eqn:Hsteps; [|by apply not_elem_of_nil in Hu].
    apply as_seq_Some in Hsteps.
    apply list_elem_of_bind in Hu as (step & Hu & Hstep). unfold step_uses in Hu.
    destruct (as_map step) as [stepMap|] eqn:Hs; [|by apply not_elem_of_nil in Hu].
    apply as_map_Some in Hs as ->.
    destruct (as_string _) as [u|] eqn:Hstr; [|by apply not_elem_of_nil in Hu].
    apply as_string_Some in Hstr. apply list_elem_of_singleton in Hu as ->.
    by exists jobs, id, jobMap, steps, stepMap.
  - intros (jobs & id & job & steps & step & -> & Hjob & Hsteps & Hstep & Huses). simpl.
    apply list_elem_of_bind. exists (id, VMap job). split; [|done].
    unfold job_uses. simpl. rewrite Hsteps. simpl.
    apply list_elem_of_bind. exists (VMap step). split; [|done].
    unfold step_uses. simpl. rewrite Huses. simpl. by left.
Qed.

Lemma index_elem (m : document) key v : index m key = v → v ≠ VNull → (key, v) ∈ m.
Proof.
  induction m as [|[k x] m IH]; simpl; [congruence|].
  destruct (String.eqb_spec k key) as [->|_].
  - intros -> _. by left.
  - intros Hv Hnull. right. by apply IH.
Qed.

(** The string-keyed reading is a case of the reading with keys of any
    type. *)
Lemma uses_in_declares workflow uses : uses_in workflow uses → declares_uses workflow uses.
Proof.
  intros (jobs & jid & job & steps & step & Hjobs & Hjob & Hsteps & Hstep & Huses).
  exists (prod_map VStr id <$> jobs), (VStr jid), (VMap job),
    (prod_map VStr id <$> job), steps, (VMap step), (prod_map VStr id <$> step).
  rewrite Hjobs.
  split; [done|]. split; [apply list_elem_of_fmap; by exists (jid, VMap job)|].
  split; [done|].
  split; [apply list_elem_of_fmap; exists ("steps", VSeq steps);
          split; [done | by apply index_elem]|].
  split; [done|]. split; [done|].
  apply list_elem_of_fmap. exists ("uses", VStr uses). split; [done | by apply index_elem].
Qed.

(** C1, as amended.  For a document that [yaml.Unmarshal] decodes, every
    string [uses] field of a step of a job, where the [jobs] mapping, the
    job and the step are mappings with string keys only, is afterwards a
    key of the usage mapping, with the repository name in its repository
    set: the entry is the former one (a new one when there was none) with
    the name added.  Every other key is as before, so a document without
    such a [jobs] mapping, a job that is no such mapping or has no [steps]
    sequence and a step that is no such mapping or has no string [uses]
    leave the mapping as it was. *)
Theorem extractActionsFromWorkflow_spec
    (yaml_Unmarshal : string → document + error)
    (workflowContent repoName : string) (usesRepos : usage) (workflow : document) :
  yaml_Unmarshal workflowContent = inl workflow →
  ∃ usesRepos',
    extractActionsFromWorkflow yaml_Unmarshal workflowContent repoName usesRepos
      = Done usesRepos' []
    ∧ (∀ uses, uses_in workflow uses →
         usesRepos' !! uses
           = Some (with_repo repoName (default new_ActionInfo (usesRepos !! uses)))
         ∧ ∃ info, usesRepos' !! uses = Some info ∧ repoName ∈ Repos info)
    ∧ (∀ k, ¬ uses_in workflow k → usesRepos' !! k = usesRepos !! k)
    ∧ (as_map (index workflow "jobs") = None → usesRepos' = usesRepos)
    ∧ (∀ job, as_seq (index job "steps") = None →
         processJobSteps (VMap job) repoName usesRepos = usesRepos)
    ∧ (∀ step, as_string (index step "uses") = None →
         processStep repoName usesRepos (VMap step) = usesRepos)
    ∧ (∀ job, as_map job = None → processJobSteps job repoName usesRepos = usesRepos)
    ∧ (∀ step, as_map step = None → processStep repoName usesRepos step = usesRepos).
Proof.
  intros Hy. eexists. split; [by apply extractActionsFromWorkflow_uses|].
  split; [|split; [|split; [|split; [|split; [|split]]]]];
    [..|intros job Hjob; unfold processJobSteps; by rewrite Hjob
       |intros step Hstep; unfold processStep; by rewrite Hstep].
  - intros uses Hin%elem_of_workflow_uses.
    rewrite add_all_lookup, decide_True by done. split; [done|].
    eexists. split; [done|]. simpl. set_solver.
  - intros k Hk. rewrite add_all_lookup, decide_False; [done|].
    by rewrite elem_of_workflow_uses.
  - intros Hjobs. unfold workflow_uses. by rewrite Hjobs.
  - intros job Hsteps. unfold processJobSteps. simpl. by rewrite Hsteps.
  - intros step Huses. unfold processStep. simpl. by rewrite Huses.
Qed.

(** C1 as stated fails for a [jobs] mapping with a key that is not a
    string: the document holds a step with a string [uses], the type
    assertion of main.go:152 fails, and nothing is inserted. *)
Lemma extractActionsFromWorkflow_nonstring_key :
  NonStringKey.yaml_Unmarshal NonStringKey.workflow_text = inl NonStringKey.workflow
  ∧ declares_uses NonStringKey.workflow "c/d@v1"
  ∧ extractActionsFromWorkflow NonStringKey.yaml_Unmarshal NonStringKey.workflow_text "app" ∅
    = Done ∅ []
  ∧ (∅ : usage) !! "c/d@v1" = None.
Proof.
  split; [reflexivity|]. split; [|by split].
  eexists _, (VStr "build"), _, _, _, _, _.
  split; [reflexivity|]. split; [right; left|].
  split; [reflexivity|]. split; [left|].
  split; [left|]. split; [reflexivity | left].
Qed.

(** ** The infection check of a lock file *)

Section Infection.

Variable infectedPackages : list string.

Lemma pinned_infected_nil s : ¬ pinned_infected infectedPackages [] s.
Proof. by intros (? & ? & ? & ?%not_elem_of_nil & _). Qed.

Lemma pinned_infected_app l1 l2 s :
  pinned_infected infectedPackages (l1 ++ l2) s
  ↔ pinned_infected infectedPackages l1 s ∨ pinned_infected infectedPackages l2 s.
Proof.
  unfold pinned_infected. split.
  - intros (p & d & v & [Hin|Hin]%elem_of_app & H); [left | right]; by exists p, d, v.
  - intros [(p & d & v & Hin & H)|(p & d & v & Hin & H)]; exists p, d, v;
      (split; [apply elem_of_app; by eauto | done]).
Qed.

Lemma checkPackage_elem acc entry s :
  s ∈ checkPackage infectedPackages acc entry
  ↔ s ∈ acc ∨ pinned_infected infectedPackages [entry] s.
Proof.
  destruct entry as [pkgPath pkgInfo]. unfold checkPackage, pinned_infected.
  assert (∀ p d, (p, VMap d) ∈ [(pkgPath, pkgInfo)] ↔ p = pkgPath ∧ pkgInfo = VMap d) as Hsingle.
  { intros p d. rewrite list_elem_of_singleton. split; [by intros [= -> ->] | by intros [-> ->]]. }
  setoid_rewrite Hsingle.
  destruct (String.eqb_spec pkgPath "") as [->|Hpath].
  { split; [by left|]. by intros [?|(p & d & v & [-> _] & ? & _)]. }
  destruct (as_map pkgInfo) as [pkgData|] eqn:Hmap.
  2:{ split; [by left|]. intros [?|(p & d & v & [-> ->] & _)]; done. }
  apply as_map_Some in Hmap as ->.
  destruct (as_string (index pkgData "version")) as [version|] eqn:Hv.
  2:{ split; [by left|]. intros [?|(p & d & v & [-> [= <-]] & _ & Hd & _)]; [done|].
      by rewrite Hd in Hv. }
  apply as_string_Some in Hv.
  destruct (isInfectedPackage _ _) eqn:Hinf.
  - apply isInfectedPackage_elem in Hinf. rewrite elem_of_app, list_elem_of_singleton.
    split.
    + intros [?| ->]; [by left|]. right. by exists pkgPath, pkgData, version.
    + intros [?|(p & d & v & [-> [= <-]] & _ & Hd & -> & _)]; [by left|].
      right. rewrite Hv in Hd. by injection Hd as <-.
  - split; [by left|].
    intros [?|(p & d & v & [-> [= <-]] & _ & Hd & -> & Hin)]; [done|].
    rewrite Hv in Hd. injection Hd as <-.
    apply isInfectedPackage_elem in Hin. by rewrite Hin in Hinf.
Qed.

Lemma foundInfected_elem packages acc s :
  s ∈ foldl (checkPackage infectedPackages) acc packages
  ↔ s ∈ acc ∨ pinned_infected infectedPackages packages s.
Proof.
  revert acc; induction packages as [|entry rest IH]; intros acc; cbn [foldl].
  - split; [by left|]. by intros [?|?%pinned_infected_nil].
  - rewrite IH, checkPackage_elem, (pinned_infected_app [entry] rest). tauto.
Qed.

(** The matches met so far stay in front of the later ones. *)
Lemma foundInfected_acc packages acc :
  foldl (checkPackage infectedPackages) acc packages
  = acc ++ foldl (checkPackage infectedPackages) [] packages.
Proof.
  revert acc; induction packages as [|entry rest IH]; intros acc; cbn [foldl].
  - by rewrite app_nil_r.
  - rewrite IH, (IH (checkPackage _ [] _)), app_assoc. f_equal.
    destruct entry as [pkgPath pkgInfo]. unfold checkPackage.
    destruct (String.eqb pkgPath ""); [by rewrite app_nil_r|].
    destruct (as_map pkgInfo); [|by rewrite app_nil_r].
    destruct (as_string _); [|by rewrite app_nil_r].
    destruct (isInfectedPackage _ _); [done | by rewrite app_nil_r].
Qed.

(** The loop refines the entry-by-entry reading: same strings, same
    order, same repetitions. *)
Lemma checkPackage_pin acc entry :
  checkPackage infectedPackages acc entry
  = acc ++ option_list (infected_pin infectedPackages entry).
Proof.
  destruct entry as [pkgPath pkgInfo]. unfold checkPackage, infected_pin.
  destruct (String.eqb_spec pkgPath "") as [->|Hpath].
  { destruct pkgInfo as [| | | | |pkgData|]; try by rewrite app_nil_r.
    destruct (index pkgData "version"); try by rewrite app_nil_r. }
  destruct pkgInfo as [| | | | |pkgData|]; simpl; try by rewrite app_nil_r.
  destruct (index pkgData "version") as [| | |version| | |]; simpl; try by rewrite app_nil_r.
  destruct (isInfectedPackage _ _) eqn:Hinf.
  - apply isInfectedPackage_elem in Hinf. by rewrite bool_decide_eq_true_2.
  - rewrite bool_decide_eq_false_2; [by rewrite app_nil_r|].
    intros [_ Hin%isInfectedPackage_elem]. by rewrite Hin in Hinf.
Qed.

Lemma foundInfected_omap packages :
  foldl (checkPackage infectedPackages) [] packages
  = omap (infected_pin infectedPackages) packages.
Proof.
  induction packages as [|entry rest IH]; cbn [foldl]; [done|].
  rewrite foundInfected_acc, IH, checkPackage_pin. simpl.
  by destruct (infected_pin infectedPackages entry).
Qed.

Lemma foundInfected_none packages :
  (∀ s, ¬ pinned_infected infectedPackages packages s) →
  foldl (checkPackage infectedPackages) [] packages = [].
Proof.
  intros Hnone. destruct (foldl _ _ _) as [|s l] eqn:Hfound; [done|].
  destruct (Hnone s).
  assert (s ∈ foldl (checkPackage infectedPackages) [] packages) as Hs
    by (rewrite Hfound; by left).
  by apply foundInfected_elem in Hs as [?%not_elem_of_nil|?].
Qed.

Lemma checkPackagesForInfection_result lockJSON info packages :
  index lockJSON "packages" = VMap packages →
  let foundInfected := foldl (checkPackage infectedPackages) [] packages in
  (foundInfected = [] → checkPackagesForInfection infectedPackages lockJSON info = Done info [])
  ∧ (foundInfected ≠ [] →
     ∃ line, checkPackagesForInfection infectedPackages lockJSON info
             = Done (set_Infected foundInfected info) [Stdout line]).
Proof.
  intros Hp found. unfold checkPackagesForInfection. rewrite Hp. simpl.
  fold found. destruct found; simpl; split; try done.
  intros _. by eexists.
Qed.

End Infection.

(** C2.  With a top-level [packages] mapping, the infection check finds
    exactly the [name@version] strings of the entries that have a
    non-empty path and a string [version] and that are in the registry,
    one for each such entry and in the order of the entries;
    the entry is marked infected, with these strings as its list, when
    there are any, and left alone otherwise.  When the entry of
    [node_modules/left-pad] has version [1.3.0], the registry holds
    [left-pad@1.3.0] and no other entry of the lock file is in the
    registry, the entry is marked infected with the list
    [left-pad@1.3.0]. *)
Theorem checkPackagesForInfection_spec (infectedPackages : list string)
    (lockJSON : document) (info : ActionInfo) (packages : document) :
  index lockJSON "packages" = VMap packages →
  let foundInfected := foldl (checkPackage infectedPackages) [] packages in
  (∀ s, s ∈ foundInfected ↔ pinned_infected infectedPackages packages s)
  ∧ foundInfected = omap (infected_pin infectedPackages) packages
  ∧ (foundInfected = [] →
     checkPackagesForInfection infectedPackages lockJSON info = Done info [])
  ∧ (foundInfected ≠ [] →
     ∃ line, checkPackagesForInfection infectedPackages lockJSON info
             = Done (set_Infected foundInfected info) [Stdout line])
  ∧ (∀ before data after,
       packages = before ++ [("node_modules/left-pad", VMap data)] ++ after →
       index data "version" = VStr "1.3.0" →
       "left-pad@1.3.0" ∈ infectedPackages →
       (∀ s, ¬ pinned_infected infectedPackages (before ++ after) s) →
       ∃ line info',
         checkPackagesForInfection infectedPackages lockJSON info = Done info' [Stdout line]
         ∧ IsInfected info' = true ∧ InfectedPackages info' = ["left-pad@1.3.0"]).
Proof.
  intros Hp found.
  destruct (checkPackagesForInfection_result infectedPackages lockJSON info packages Hp)
    as [Hnone Hsome]. fold found in Hnone, Hsome.
  split; [|split; [apply foundInfected_omap|split; [done|split; [done|]]]].
  - intros s. unfold found. rewrite foundInfected_elem.
    split; [by intros [?%not_elem_of_nil|?] | by right].
  - intros before data after Hpk Hv Hreg Hothers.
    assert (found = ["left-pad@1.3.0"]) as Hfound.
    { unfold found. rewrite Hpk, !foldl_app.
      rewrite (foundInfected_none infectedPackages before).
      2:{ intros s Hs. apply (Hothers s), pinned_infected_app. by left. }
      rewrite foundInfected_acc.
      rewrite (foundInfected_none infectedPackages after).
      2:{ intros s Hs. apply (Hothers s), pinned_infected_app. by right. }
      rewrite app_nil_r. cbn [foldl checkPackage].
      change (String.eqb "node_modules/left-pad" "") with false. cbn [as_map].
      rewrite Hv. cbn [as_string].
      change (extractPackageName "node_modules/left-pad" +:+ "@" +:+ "1.3.0")
        with "left-pad@1.3.0".
      apply isInfectedPackage_elem in Hreg. by rewrite Hreg. }
    destruct Hsome as [line Hline]; [by rewrite Hfound|].
    exists line, (set_Infected found info). split; [done|]. by rewrite Hfound.
Qed.

(** ** The analysis of one action *)

Section Analyzer.

Variable infectedPackages : list string.
Variable json_Unmarshal : string → document + error.
Variable client : Client.

Lemma checkPackagesForInfection_cases lockJSON info :
  checkPackagesForInfection infectedPackages lockJSON info = Done info []
  ∨ ∃ found line, found ≠ [] ∧
      checkPackagesForInfection infectedPackages lockJSON info
      = Done (set_Infected found info) [Stdout line].
Proof.
  unfold checkPackagesForInfection.
  destruct (as_map _) as [packages|]; [|by left].
  destruct (foldl _ _ _) as [|s l]; [by left|]. right. by eexists (s :: l), _.
Qed.

(** Without a [packages] mapping the check does nothing. *)
Lemma checkPackagesForInfection_no_packages lockJSON info :
  as_map (index lockJSON "packages") = None →
  checkPackagesForInfection infectedPackages lockJSON info = Done info [].
Proof. intros H. unfold checkPackagesForInfection. by rewrite H. Qed.

(** [analyzeActionDependencies], by the answer to the request for the
    lock file. *)
Lemma analyzeActionDependencies_cases owner repo info :
  analyzeActionDependencies infectedPackages json_Unmarshal client owner repo info =
  match GetContents client owner repo lock_path with
  | ContentsErr _ =>
      prepend [Request owner repo lock_path] (analyzePackageJsonFile client owner repo info)
  | Directory _ => Panic [Request owner repo lock_path; found_lock_line owner repo]
  | File packageLock =>
      match GetContent packageLock with
      | inr err =>
          Done (set_UsesNpm true info)
               [Request owner repo lock_path; found_lock_line owner repo;
                Stdout ("  Error reading package-lock.json content for " +:+ owner
                        +:+ "/" +:+ repo +:+ ": " +:+ Error err +:+ nl)]
      | inl content =>
          match json_Unmarshal content with
          | inr err =>
              Done (set_UsesNpm true info)
                   [Request owner repo lock_path; found_lock_line owner repo;
                    Stdout ("  Error parsing package-lock.json for " +:+ owner
                            +:+ "/" +:+ repo +:+ ": " +:+ Error err +:+ nl)]
          | inl lockJSON =>
              prepend [Request owner repo lock_path; found_lock_line owner repo]
                (checkPackagesForInfection infectedPackages lockJSON (set_UsesNpm true info))
          end
      end
  end.
Proof.
  unfold analyzeActionDependencies, analyzePackageLockFile, lock_path.
  destruct (GetContents client owner repo "package-lock.json") as [f|l|e]; simpl.
  - destruct (GetContent f) as [content|err]; simpl; [|done].
    destruct (json_Unmarshal content) as [lockJSON|err]; simpl; [|done].
    destruct (checkPackagesForInfection _ _ _) as [a o| |]; simpl; [|done..].
    by rewrite !app_nil_r.
  - done.
  - by destruct (analyzePackageJsonFile client owner repo info).
Qed.

Lemma analyzePackageJsonFile_cases owner repo info :
  analyzePackageJsonFile client owner repo info =
  match GetContents client owner repo "package.json" with
  | ContentsErr _ =>
      Done info [Request owner repo "package.json";
                 Stdout ("  No package.json or package-lock.json found for " +:+ owner
                         +:+ "/" +:+ repo +:+ nl)]
  | _ =>
      Done (set_UsesNpm true info)
           [Request owner repo "package.json";
            Stdout ("  Found package.json (no lock file) for " +:+ owner
                    +:+ "/" +:+ repo +:+ nl)]
  end.
Proof.
  unfold analyzePackageJsonFile.
  by destruct (GetContents client owner repo "package.json").
Qed.

(** What the analysis of one action keeps of an entry. *)
Section Keeps.

Variable I : ActionInfo → Prop.
Hypothesis I_npm : ∀ info, I info → I (set_UsesNpm true info).
Hypothesis I_infected : ∀ found info, found ≠ [] → I info → I (set_Infected found info).
Hypothesis I_analyzed : ∀ info, I info → I (set_Analyzed true info).

Lemma analyzeActionDependencies_keeps owner repo info :
  I info →
  post I (analyzeActionDependencies infectedPackages json_Unmarshal client owner repo info).
Proof.
  intros Hi. rewrite analyzeActionDependencies_cases.
  destruct (GetContents client owner repo lock_path) as [f|l|e]; [|done|].
  - destruct (GetContent f) as [content|err]; [|by apply I_npm].
    destruct (json_Unmarshal content) as [lockJSON|err]; [|by apply I_npm].
    apply post_prepend.
    destruct (checkPackagesForInfection_cases lockJSON (set_UsesNpm true info))
      as [->|(found & line & Hfound & ->)]; simpl; auto.
  - apply post_prepend. rewrite analyzePackageJsonFile_cases.
    destruct (GetContents client owner repo "package.json"); simpl; auto.
Qed.

Lemma analyzeAction_keeps actionUse (m : usage) :
  map_Forall (λ _, I) m →
  post (map_Forall (λ _, I))
       (analyzeAction infectedPackages json_Unmarshal client actionUse m).
Proof.
  intros Hm. unfold analyzeAction.
  destruct (m !! actionUse) as [info|] eqn:Hinfo; [|done].
  destruct (Analyzed info); [done|].
  destruct (parseActionReference actionUse) as [owner repo].
  destruct (_ || _); [done|].
  apply post_bind; simpl. apply post_bind.
  pose proof (analyzeActionDependencies_keeps owner repo info (Hm _ _ Hinfo)) as H.
  destruct (analyzeActionDependencies _ _ _ _ _ _) as [info' o| |]; simpl in *; [|done..].
  apply map_Forall_insert_2; auto.
Qed.

Lemma analyzeKeys_keeps order (m : usage) :
  map_Forall (λ _, I) m →
  post (map_Forall (λ _, I))
       (analyzeKeys infectedPackages json_Unmarshal client order m).
Proof.
  revert m; induction order as [|actionUse rest IH]; intros m Hm; simpl; [done|].
  apply post_bind.
  pose proof (analyzeAction_keeps actionUse m Hm) as H.
  destruct (analyzeAction _ _ _ _ _) as [m' o| |]; simpl in *; [by apply IH | done..].
Qed.

Lemma analyzeActions_keeps order (m m' : usage) o :
  map_Forall (λ _, I) m →
  analyzeActions infectedPackages json_Unmarshal client order m = Done m' o →
  map_Forall (λ _, I) m'.
Proof.
  intros Hm Hrun.
  assert (post (map_Forall (λ _, I))
            (analyzeActions infectedPackages json_Unmarshal client order m)) as H.
  { unfold analyzeActions. apply post_bind; simpl. by apply analyzeKeys_keeps. }
  by rewrite Hrun in H.
Qed.

End Keeps.

(** The entry of a key after one turn of the loop, and after all. *)
Lemma analyzeAction_Done actionUse (m m' : usage) o :
  analyzeAction infectedPackages json_Unmarshal client actionUse m = Done m' o →
  match m !! actionUse with
  | None => m' = m
  | Some info =>
      if Analyzed info || negb (well_formed actionUse) then m' = m
      else ∃ info1 o1,
          analyzeActionDependencies infectedPackages json_Unmarshal client
            (owner_of actionUse) (repo_of actionUse) info = Done info1 o1
          ∧ m' = <[actionUse := set_Analyzed true info1]> m
  end.
Proof.
  unfold analyzeAction, well_formed, owner_of, repo_of.
  destruct (m !! actionUse) as [info|]; [|by intros [= <-]].
  destruct (Analyzed info); simpl; [by intros [= <-]|].
  destruct (parseActionReference actionUse) as [owner repo]; simpl.
  destruct (_ || _); simpl; [by intros [= <-]|].
  intros (o2 & (info1 & o3 & o4 & Hdeps & [= <-] & _)%bind_Done & _)%prepend_Done.
  by exists info1, o3.
Qed.

Lemma analyzeKeys_None order (m m' : usage) o k :
  analyzeKeys infectedPackages json_Unmarshal client order m = Done m' o →
  m !! k = None → m' !! k = None.
Proof.
  revert m o; induction order as [|a rest IH]; intros m o; simpl.
  - by intros [= <-].
  - intros (m1 & o1 & o2 & Ha & Hrest & _)%bind_Done Hk.
    apply (IH _ _ Hrest). apply analyzeAction_Done in Ha.
    destruct (m !! a) as [info|] eqn:Hinfo; [|by subst m1].
    destruct (_ || _); [by subst m1|].
    destruct Ha as (info1 & _ & _ & ->).
    rewrite lookup_insert_ne; [done|]. intros ->. by rewrite Hk in Hinfo.
Qed.

Lemma analyzeKeys_lookup order (m m' : usage) o k info :
  analyzeKeys infectedPackages json_Unmarshal client order m = Done m' o →
  m !! k = Some info →
  if bool_decide (k ∈ order) && negb (Analyzed info) && well_formed k
  then ∃ info1 o1,
      analyzeActionDependencies infectedPackages json_Unmarshal client
        (owner_of k) (repo_of k) info = Done info1 o1
      ∧ m' !! k = Some (set_Analyzed true info1)
  else m' !! k = Some info.
Proof.
  revert m o info; induction order as [|a rest IH]; intros m o info; simpl.
  - by intros [= <-].
  - intros (m1 & o1 & o2 & Ha & Hrest & _)%bind_Done Hk.
    apply analyzeAction_Done in Ha.
    destruct (decide (k = a)) as [->|Hne].
    + rewrite bool_decide_eq_true_2 by left. rewrite Hk in Ha. simpl.
      destruct (Analyzed info) eqn:Han; simpl in *.
      { subst m1. specialize (IH _ _ _ Hrest Hk). rewrite Han in IH.
        by rewrite andb_false_r in IH. }
      destruct (well_formed a) eqn:Hwf; simpl in *.
      2:{ subst m1. specialize (IH _ _ _ Hrest Hk).
          by rewrite andb_false_r in IH. }
      destruct Ha as (info1 & o3 & Hdeps & ->).
      exists info1, o3. split; [done|].
      specialize (IH _ _ (set_Analyzed true info1) Hrest (lookup_insert_eq _ _ _)).
      by rewrite andb_false_r in IH.
    + assert (m1 !! k = Some info) as Hk1.
      { destruct (m !! a) as [info0|]; [|by subst m1].
        destruct (_ || _); [by subst m1|].
        destruct Ha as (info1 & _ & _ & ->). by rewrite lookup_insert_ne. }
      specialize (IH _ _ _ Hrest Hk1).
      replace (bool_decide (k ∈ a :: rest)) with (bool_decide (k ∈ rest)); [done|].
      apply bool_decide_ext. rewrite elem_of_cons. tauto.
Qed.

Lemma analyzeActions_Done order (m m' : usage) o :
  analyzeActions infectedPackages json_Unmarshal client order m = Done m' o →
  ∃ o', analyzeKeys infectedPackages json_Unmarshal client order m = Done m' o'.
Proof.
  unfold analyzeActions.
  intros (_ & o1 & o2 & _ & Hkeys & _)%bind_Done. by exists o2.
Qed.

End Analyzer.

(** ** Entries through the scan and the analysis *)

Lemma addActionUsage_Forall (I : ActionInfo → Prop) actionUse repoName (m : usage) :
  (∀ info, I info → I (with_repo repoName info)) →
  I (with_repo repoName new_ActionInfo) →
  map_Forall (λ _, I) m → map_Forall (λ _, I) (addActionUsage actionUse repoName m).
Proof.
  intros Hold Hnew Hm k info. rewrite addActionUsage_lookup.
  case_decide as Hk; [|by apply Hm].
  intros [= <-]. destruct (m !! actionUse) as [info|] eqn:Hinfo; simpl; [|done].
  apply Hold. by eapply Hm.
Qed.

Lemma scanRepositories_Forall (I : ActionInfo → Prop)
    yaml_Unmarshal client fuel org (m : usage) o :
  (∀ repoName info, I info → I (with_repo repoName info)) →
  (∀ repoName, I (with_repo repoName new_ActionInfo)) →
  scanRepositories yaml_Unmarshal client fuel org = Some (Done m o) →
  map_Forall (λ _, I) m.
Proof.
  intros Hold Hnew Hscan.
  apply (scanPages_keeps yaml_Unmarshal client (map_Forall (λ _, I))) in Hscan;
    [exact Hscan|..].
  - intros actionUse repoName m0. apply addActionUsage_Forall; [apply Hold | apply Hnew].
  - apply map_Forall_empty.
Qed.

Lemma scanRepositories_fresh yaml_Unmarshal client fuel org (m : usage) o :
  scanRepositories yaml_Unmarshal client fuel org = Some (Done m o) →
  map_Forall (λ _, fresh) m.
Proof. apply scanRepositories_Forall; by intros. Qed.

Lemma addActionUsage_grows actionUse repoName (m : usage) :
  grows m (addActionUsage actionUse repoName m).
Proof.
  intros k info Hk. rewrite addActionUsage_lookup.
  case_decide as Heq; [|by exists info].
  subst k. rewrite Hk. eexists. split; [done|]. simpl. set_solver.
Qed.

Lemma addActionUsage_member actionUse repoName (m : usage) :
  ∃ info, addActionUsage actionUse repoName m !! actionUse = Some info
          ∧ repoName ∈ Repos info.
Proof.
  rewrite addActionUsage_lookup, decide_True by done.
  eexists. split; [done|]. simpl. set_solver.
Qed.

(** The analysis creates no entry, deletes none, and leaves the
    repository sets alone. *)
Lemma analyzeActions_Repos infectedPackages json_Unmarshal client order (m m' : usage) o k :
  analyzeActions infectedPackages json_Unmarshal client order m = Done m' o →
  Repos <$> m' !! k = Repos <$> m !! k.
Proof.
  intros [o' Hkeys]%analyzeActions_Done.
  destruct (m !! k) as [info|] eqn:Hk.
  2:{ by rewrite (analyzeKeys_None _ _ _ _ _ _ _ _ Hkeys Hk). }
  pose proof (analyzeKeys_lookup _ _ _ _ _ _ _ _ _ Hkeys Hk) as H.
  destruct (_ && _); [|by rewrite H].
  destruct H as (info1 & o1 & Hdeps & ->). simpl. f_equal.
  pose proof (analyzeActionDependencies_keeps infectedPackages json_Unmarshal client
                (λ i, Repos i = Repos info)) as Hkeep.
  specialize (Hkeep (λ _ H, H) (λ _ _ _ H, H) (owner_of k) (repo_of k) info eq_refl).
  by rewrite Hdeps in Hkeep.
Qed.

(** C3.  [isInfected] is true exactly when [infectedPackages] is not
    empty, for every entry: [addActionUsage] keeps it so when it creates
    or extends an entry, it holds of the mapping that the scan returns, of
    the mapping after the analysis, and so of what the report, which only
    reads the mapping, prints. *)
Theorem infection_consistent_run
    (infectedPackages : list string)
    (yaml_Unmarshal json_Unmarshal : string → document + error) (client : Client)
    (fuel : nat) (org : string) (order : list string)
    (scanned analyzed : usage) (o1 o2 : list event) :
  scanRepositories yaml_Unmarshal client fuel org = Some (Done scanned o1) →
  analyzeActions infectedPackages json_Unmarshal client order scanned = Done analyzed o2 →
  (∀ actionUse repoName (m : usage),
     map_Forall (λ _, infection_consistent) m →
     map_Forall (λ _, infection_consistent) (addActionUsage actionUse repoName m))
  ∧ (∀ k info, scanned !! k = Some info → infection_consistent info)
  ∧ (∀ k info, analyzed !! k = Some info → infection_consistent info)
  ∧ (∀ report_order repo_order,
       ∃ o3, printResults report_order repo_order analyzed = Done () o3).
Proof.
  intros Hscan Hrun.
  assert (∀ repoName info, infection_consistent info →
                           infection_consistent (with_repo repoName info)) as Hold by done.
  assert (∀ repoName, infection_consistent (with_repo repoName new_ActionInfo)) as Hnew by done.
  assert (map_Forall (λ _, infection_consistent) scanned) as Hscanned
    by (by eapply scanRepositories_Forall).
  split; [|split; [done|split]].
  - intros actionUse repoName m. apply addActionUsage_Forall; [apply Hold | apply Hnew].
  - eapply map_Forall_lookup, analyzeActions_keeps; [..|exact Hscanned|exact Hrun]; [done| |done].
    intros found info Hfound _. unfold infection_consistent. simpl. done.
  - intros report_order repo_order. by eexists.
Qed.

(** C9.  The repository set of an entry is never empty: [addActionUsage]
    puts the repository name into the entry it creates or finds, never
    drops an entry or a member, and the analysis leaves the keys and the
    repository sets as they are; so the sets are non-empty in the mapping
    that the scan returns and in the mapping after the analysis. *)
Theorem Repos_nonempty_run
    (infectedPackages : list string)
    (yaml_Unmarshal json_Unmarshal : string → document + error) (client : Client)
    (fuel : nat) (org : string) (order : list string)
    (scanned analyzed : usage) (o1 o2 : list event) :
  scanRepositories yaml_Unmarshal client fuel org = Some (Done scanned o1) →
  analyzeActions infectedPackages json_Unmarshal client order scanned = Done analyzed o2 →
  (∀ actionUse repoName (m : usage),
     grows m (addActionUsage actionUse repoName m)
     ∧ ∃ info, addActionUsage actionUse repoName m !! actionUse = Some info
               ∧ repoName ∈ Repos info)
  ∧ (∀ k info, scanned !! k = Some info → Repos info ≠ ∅)
  ∧ (∀ k, Repos <$> analyzed !! k = Repos <$> scanned !! k)
  ∧ (∀ k info, analyzed !! k = Some info → Repos info ≠ ∅).
Proof.
  intros Hscan Hrun.
  assert (map_Forall (λ _ info, Repos info ≠ ∅) scanned) as Hscanned.
  { eapply (scanRepositories_Forall (λ info, Repos info ≠ ∅)); [..|exact Hscan].
    - intros repoName info _. simpl. set_solver.
    - intros repoName. simpl. set_solver. }
  split; [|split; [done|split]].
  - intros actionUse repoName m.
    split; [apply addActionUsage_grows | apply addActionUsage_member].
  - intros k. by eapply analyzeActions_Repos.
  - intros k info Hk.
    pose proof (analyzeActions_Repos _ _ _ _ _ _ _ k Hrun) as HR.
    rewrite Hk in HR. destruct (scanned !! k) as [info0|] eqn:Hk0; [|done].
    injection HR as ->. by eapply Hscanned.
Qed.

Section Run.

Variable infectedPackages : list string.
Variables yaml_Unmarshal json_Unmarshal : string → document + error.
Variable client : Client.
Variables (fuel : nat) (org : string) (order : list string).
Variables (scanned analyzed : usage) (o1 o2 : list event).
Hypothesis Hscan : scanRepositories yaml_Unmarshal client fuel org = Some (Done scanned o1).
Hypothesis Horder : range_order scanned order.
Hypothesis Hrun :
  analyzeActions infectedPackages json_Unmarshal client order scanned = Done analyzed o2.

(** The entry of a key after the run: the one of the scan when the
    reference is malformed, and else what the analysis of the action
    makes of it, marked as analyzed. *)
Lemma analyzed_entry k info :
  analyzed !! k = Some info →
  ∃ info0, scanned !! k = Some info0 ∧ fresh info0
    ∧ if well_formed k
      then ∃ info1 o,
          analyzeActionDependencies infectedPackages json_Unmarshal client
            (owner_of k) (repo_of k) info0 = Done info1 o
          ∧ info = set_Analyzed true info1
      else info = info0.
Proof.
  intros Hk. destruct (analyzeActions_Done _ _ _ _ _ _ _ Hrun) as [o' Hkeys].
  destruct (scanned !! k) as [info0|] eqn:Hk0.
  2:{ by rewrite (analyzeKeys_None _ _ _ _ _ _ _ _ Hkeys Hk0) in Hk. }
  assert (fresh info0) as Hfresh by (by eapply scanRepositories_fresh).
  exists info0. split; [done|]. split; [done|].
  pose proof (analyzeKeys_lookup _ _ _ _ _ _ _ _ _ Hkeys Hk0) as H.
  assert (k ∈ order) as Hin.
  { rewrite Horder. apply list_elem_of_fmap. exists (k, info0).
    split; [done|]. by apply elem_of_map_to_list. }
  rewrite bool_decide_eq_true_2 in H by done.
  destruct Hfresh as (_ & _ & _ & Han). rewrite Han in H. simpl in H.
  destruct (well_formed k).
  - destruct H as (info1 & o & Hdeps & H). rewrite Hk in H. injection H as ->.
    by exists info1, o.
  - rewrite Hk in H. by injection H.
Qed.

End Run.

(** C5, as amended.  After the analysis pass an entry has
    [analyzed = true] when its reference splits into a non-empty owner and
    a non-empty repository name; an entry with any other reference is
    skipped and left as the scan created it, with [analyzed = false]. *)
Theorem analyzeActions_analyzed
    (infectedPackages : list string)
    (yaml_Unmarshal json_Unmarshal : string → document + error) (client : Client)
    (fuel : nat) (org : string) (order : list string)
    (scanned analyzed : usage) (o1 o2 : list event) (k : string) (info : ActionInfo) :
  scanRepositories yaml_Unmarshal client fuel org = Some (Done scanned o1) →
  range_order scanned order →
  analyzeActions infectedPackages json_Unmarshal client order scanned = Done analyzed o2 →
  analyzed !! k = Some info →
  (well_formed k = true → Analyzed info = true)
  ∧ (well_formed k = false → scanned !! k = Some info ∧ Analyzed info = false).
Proof.
  intros Hscan Horder Hrun Hk.
  destruct (analyzed_entry _ _ _ _ _ _ _ _ _ _ _ Hscan Horder Hrun k info Hk)
    as (info0 & Hk0 & Hfresh & H).
  split; intros Hwf; rewrite Hwf in H.
  - by destruct H as (info1 & o & _ & ->).
  - subst info0. split; [done|]. by destruct Hfresh as (_ & _ & _ & ?).
Qed.

(** C8.  For an analyzed entry whose lock file cannot be fetched: when
    the request for [package.json] succeeds the entry ends with
    [usesNpm = true], and when it fails with [usesNpm = false]; either
    way [isInfected] is false and the infected-package list is empty.
    The analysis of such an action is the request for the lock file
    followed by [analyzePackageJsonFile], which has neither the decoder
    nor the registry: nothing is checked. *)
Theorem no_lock_file
    (infectedPackages : list string)
    (yaml_Unmarshal json_Unmarshal : string → document + error) (client : Client)
    (fuel : nat) (org : string) (order : list string)
    (scanned analyzed : usage) (o1 o2 : list event)
    (k : string) (info : ActionInfo) (err : error) :
  scanRepositories yaml_Unmarshal client fuel org = Some (Done scanned o1) →
  range_order scanned order →
  analyzeActions infectedPackages json_Unmarshal client order scanned = Done analyzed o2 →
  analyzed !! k = Some info →
  well_formed k = true →
  GetContents client (owner_of k) (repo_of k) lock_path = ContentsErr err →
  Analyzed info = true
  ∧ IsInfected info = false ∧ InfectedPackages info = []
  ∧ UsesNpm info = match GetContents client (owner_of k) (repo_of k) "package.json" with
                   | ContentsErr _ => false
                   | _ => true
                   end
  ∧ (∀ info0,
       analyzeActionDependencies infectedPackages json_Unmarshal client
         (owner_of k) (repo_of k) info0
       = prepend [Request (owner_of k) (repo_of k) lock_path]
           (analyzePackageJsonFile client (owner_of k) (repo_of k) info0)).
Proof.
  intros Hscan Horder Hrun Hk Hwf Hlock.
  destruct (analyzed_entry _ _ _ _ _ _ _ _ _ _ _ Hscan Horder Hrun k info Hk)
    as (info0 & Hk0 & (Hnpm & Hinf & Hpk & Han) & H).
  rewrite Hwf in H. destruct H as (info1 & o & Hdeps & ->).
  rewrite analyzeActionDependencies_cases, Hlock, analyzePackageJsonFile_cases in Hdeps.
  split; [done|].
  assert (∀ info0, analyzeActionDependencies infectedPackages json_Unmarshal client
                     (owner_of k) (repo_of k) info0
                   = prepend [Request (owner_of k) (repo_of k) lock_path]
                       (analyzePackageJsonFile client (owner_of k) (repo_of k) info0)) as Heq.
  { intros i. by rewrite analyzeActionDependencies_cases, Hlock. }
  destruct (GetContents client (owner_of k) (repo_of k) "package.json");
    injection Hdeps as <- _; simpl; by rewrite ?Hnpm, ?Hinf, ?Hpk.
Qed.

(** C10.  For an analyzed entry whose lock file is fetched but does not
    decode, is not JSON, or has no [packages] mapping, the entry ends with
    [usesNpm = true], [isInfected = false] and an empty infected-package
    list, and the analysis of the action sends no request for
    [package.json]; such a request is sent only when the request for the
    lock file has failed. *)
Theorem lock_file_without_packages
    (infectedPackages : list string)
    (yaml_Unmarshal json_Unmarshal : string → document + error) (client : Client)
    (fuel : nat) (org : string) (order : list string)
    (scanned analyzed : usage) (o1 o2 : list event)
    (k : string) (info : ActionInfo) (packageLock : RepositoryContent) :
  scanRepositories yaml_Unmarshal client fuel org = Some (Done scanned o1) →
  range_order scanned order →
  analyzeActions infectedPackages json_Unmarshal client order scanned = Done analyzed o2 →
  analyzed !! k = Some info →
  well_formed k = true →
  GetContents client (owner_of k) (repo_of k) lock_path = File packageLock →
  no_packages json_Unmarshal packageLock →
  UsesNpm info = true ∧ IsInfected info = false ∧ InfectedPackages info = []
  ∧ (∀ info0,
       Request (owner_of k) (repo_of k) "package.json"
       ∉ output (analyzeActionDependencies infectedPackages json_Unmarshal client
                   (owner_of k) (repo_of k) info0))
  ∧ (∀ owner repo info0,
       Request owner repo "package.json"
       ∈ output (analyzeActionDependencies infectedPackages json_Unmarshal client
                   owner repo info0) →
       ∃ err, GetContents client owner repo lock_path = ContentsErr err).
Proof.
  intros Hscan Horder Hrun Hk Hwf Hlock Hno.
  assert (∀ owner repo info0 f,
            GetContents client owner repo lock_path = File f →
            Request owner repo "package.json"
            ∉ output (analyzeActionDependencies infectedPackages json_Unmarshal client
                        owner repo info0)) as Hfile.
  { intros owner repo info0 f Hf. rewrite analyzeActionDependencies_cases, Hf.
    destruct (GetContent f) as [content|e]; simpl.
    2:{ rewrite !elem_of_cons. by intros [?|[?|[?|?%not_elem_of_nil]]]. }
    destruct (json_Unmarshal content) as [lockJSON|e]; simpl.
    2:{ rewrite !elem_of_cons. by intros [?|[?|[?|?%not_elem_of_nil]]]. }
    destruct (checkPackagesForInfection_cases infectedPackages lockJSON
                (set_UsesNpm true info0)) as [->|(found & line & _ & ->)]; simpl.
    - rewrite !elem_of_cons. by intros [?|[?|?%not_elem_of_nil]].
    - rewrite !elem_of_cons. by intros [?|[?|[?|?%not_elem_of_nil]]]. }
  destruct (analyzed_entry _ _ _ _ _ _ _ _ _ _ _ Hscan Horder Hrun k info Hk)
    as (info0 & Hk0 & (Hnpm & Hinf & Hpk & Han) & H).
  rewrite Hwf in H. destruct H as (info1 & o & Hdeps & ->).
  rewrite analyzeActionDependencies_cases, Hlock in Hdeps.
  assert (info1 = set_UsesNpm true info0) as ->.
  { unfold no_packages in Hno.
    destruct (GetContent packageLock) as [content|e]; [|by injection Hdeps].
    destruct (json_Unmarshal content) as [lockJSON|e]; [|by injection Hdeps].
    rewrite checkPackagesForInfection_no_packages in Hdeps by done.
    by injection Hdeps. }
  simpl. split; [done|]. split; [done|]. split; [done|]. split.
  - intros i. by eapply Hfile.
  - intros owner repo i Hreq.
    destruct (GetContents client owner repo lock_path) as [f|l|e] eqn:Hl; [| |by exists e].
    + by destruct (Hfile owner repo i f Hl).
    + rewrite analyzeActionDependencies_cases, Hl in Hreq. simpl in Hreq.
      revert Hreq. rewrite !elem_of_cons. by intros [?|[?|?%not_elem_of_nil]].
Qed.

(** ** A failing request for the workflow directory *)

(** C4.  What [processRepository] does when the listing of the workflow
    directory fails: for every [*github.ErrorResponse], whatever its
    status (404, but 500 as well), it returns with the request as its only
    trace and logs nothing; for every other error it logs one line.  In
    both cases the usage mapping is as before, and the loop over the page
    goes on with the next repository. *)
Theorem processRepository_failure
    (yaml_Unmarshal : string → document + error) (client : Client)
    (org repoName : string) (usesRepos : usage) (err : error) :
  GetContents client org repoName workflows_dir = ContentsErr err →
  processRepository yaml_Unmarshal client org repoName usesRepos
  = Done usesRepos
      (Request org repoName workflows_dir
       :: match err with
          | ErrorResponse _ _ => []
          | OtherError _ =>
              [Logged ("Error getting contents of .github/workflows in "
                       +:+ repoName +:+ ": " +:+ Error err)]
          end)
  ∧ (∀ rest repoCount,
       shouldStopScanning repoCount = false →
       ∃ o, scanPage yaml_Unmarshal client org (repoName :: rest) repoCount usesRepos
            = prepend o (scanPage yaml_Unmarshal client org rest
                           (wrap_int (repoCount + 1)) usesRepos)).
Proof.
  intros Herr.
  assert (∃ o, processRepository yaml_Unmarshal client org repoName usesRepos
               = Done usesRepos o) as [o Ho].
  { unfold processRepository. rewrite Herr. destruct err; by eexists. }
  split.
  - unfold processRepository. rewrite Herr. by destruct err.
  - intros rest repoCount Hstop. rewrite scanPage_cons, Hstop, Ho.
    destruct (logRepoProgress_Done repoCount repoName) as [o' ->].
    exists (o' ++ o). simpl. by destruct (scanPage _ _ _ _ _ _); simpl; rewrite app_assoc.
Qed.

Lemma processRepository_failure_witness :
  processRepository Scenario.yaml_Unmarshal Scenario.client_500 "org" "app" ∅
  = Done ∅ [Request "org" "app" ".github/workflows"].
Proof.
  apply (processRepository_failure Scenario.yaml_Unmarshal Scenario.client_500
           "org" "app" ∅ (ErrorResponse 500 "500 Internal Server Error")).
  reflexivity.
Defined.

(** ** The run on the small organisation *)

Lemma Scenario_scan (lock package_json : contents) :
  scanRepositories Scenario.yaml_Unmarshal (Scenario.server lock package_json) 1 "org"
  = Some (Done Scenario.scanned Scenario.scan_output).
Proof. vm_compute. reflexivity. Qed.

Lemma Scenario_order : range_order Scenario.scanned Scenario.order.
Proof. unfold range_order, Scenario.order. reflexivity. Qed.

Lemma Scenario_lock :
  analyzeActions Scenario.registry Scenario.json_Unmarshal Scenario.client
    Scenario.order Scenario.scanned
  = Done (Scenario.final Scenario.result_lock) (output Scenario.result_lock).
Proof. vm_compute. reflexivity. Qed.

Lemma Scenario_package_json :
  analyzeActions Scenario.registry Scenario.json_Unmarshal Scenario.client_package_json
    Scenario.order Scenario.scanned
  = Done (Scenario.final Scenario.result_package_json) (output Scenario.result_package_json).
Proof. vm_compute. reflexivity. Qed.

Lemma Scenario_broken_lock :
  analyzeActions Scenario.registry Scenario.json_Unmarshal Scenario.client_broken_lock
    Scenario.order Scenario.scanned
  = Done (Scenario.final Scenario.result_broken_lock) (output Scenario.result_broken_lock).
Proof. vm_compute. reflexivity. Qed.

Lemma Scenario_infected_entry :
  Scenario.final Scenario.result_lock !! "actor/action@v1" = Some Scenario.infected_entry.
Proof. vm_compute. reflexivity. Qed.

Lemma Scenario_skipped_entry :
  Scenario.final Scenario.result_lock !! "checkout" = Some Scenario.skipped_entry.
Proof. vm_compute. reflexivity. Qed.

Lemma Scenario_package_json_entry :
  Scenario.final Scenario.result_package_json !! "actor/action@v1" = Some Scenario.npm_entry.
Proof. vm_compute. reflexivity. Qed.

Lemma Scenario_broken_lock_entry :
  Scenario.final Scenario.result_broken_lock !! "actor/action@v1" = Some Scenario.npm_entry.
Proof. vm_compute. reflexivity. Qed.

(** A run of [main] that comes to its end is a scan followed by the
    analysis of the scanned mapping, with the client of the token. *)
Lemma main_stages infectedPackages yaml_Unmarshal json_Unmarshal Getenv NewClient
    ranges fuel (m : usage) out :
  main infectedPackages yaml_Unmarshal json_Unmarshal Getenv NewClient ranges fuel
    = Some (Done m out) →
  ∃ scanned o1 o2,
    scanRepositories yaml_Unmarshal (NewClient (Getenv "GITHUB_TOKEN")) fuel
      (Getenv "GITHUB_ORG") = Some (Done scanned o1)
    ∧ analyzeActions infectedPackages json_Unmarshal (NewClient (Getenv "GITHUB_TOKEN"))
        (analysis_order ranges scanned) scanned = Done m o2.
Proof.
  unfold main, getRequiredEnv.
  destruct (String.eqb (Getenv "GITHUB_TOKEN") ""); [done|].
  destruct (String.eqb (Getenv "GITHUB_ORG") ""); [done|]. simpl.
  destruct (scanRepositories _ _ _ _) as [[scanned o1| |]|]; simpl; try done.
  destruct (analyzeActions _ _ _ _ _) as [m' o2| |] eqn:Hrun; simpl; try done.
  intros [= <- _]. by exists scanned, o1, o2.
Qed.

(** The whole program on the organisation: the action that pins
    [left-pad] 1.3.0 is reported as infected. *)
Example Scenario_main :
  ∃ out,
    main Scenario.registry Scenario.yaml_Unmarshal Scenario.json_Unmarshal
      Scenario.Getenv (λ _, Scenario.client) Scenario.ranges 1
    = Some (Done (Scenario.final Scenario.result_lock) out)
    ∧ Stdout ("  Infected packages: [left-pad@1.3.0]" +:+ nl) ∈ out.
Proof.
  eexists. split; [vm_compute; reflexivity|].
  apply list_elem_of_In. vm_compute. do 24 right. by left.
Qed.

Lemma extractActionsFromWorkflow_spec_witness :
  ∃ usesRepos',
    extractActionsFromWorkflow Scenario.yaml_Unmarshal Scenario.workflow_text "app" ∅
      = Done usesRepos' []
    ∧ ∃ info, usesRepos' !! "actor/action@v1" = Some info ∧ "app" ∈ Repos info.
Proof.
  destruct (extractActionsFromWorkflow_spec Scenario.yaml_Unmarshal
              Scenario.workflow_text "app" ∅ Scenario.workflow eq_refl)
    as (usesRepos' & Hrun & Huses & _).
  exists usesRepos'. split; [exact Hrun|].
  apply Huses. unfold uses_in. eexists _, "build", _, _, _.
  split; [reflexivity|]. split; [apply list_elem_of_here|].
  split; [reflexivity|]. split; [apply list_elem_of_here|]. reflexivity.
Defined.

Lemma checkPackagesForInfection_spec_witness :
  ∃ line info',
    checkPackagesForInfection Scenario.registry Scenario.lockJSON new_ActionInfo
      = Done info' [Stdout line]
    ∧ IsInfected info' = true ∧ InfectedPackages info' = ["left-pad@1.3.0"].
Proof.
  eapply (proj2 (proj2 (proj2 (proj2
            (checkPackagesForInfection_spec Scenario.registry Scenario.lockJSON
               new_ActionInfo _ eq_refl))))
            [("", VMap [("name", VStr "action"); ("version", VStr "1.0.0")])]
            [("version", VStr "1.3.0")]
            [("node_modules/@actions/core", VMap [("version", VStr "1.10.0")])]).
  - reflexivity.
  - reflexivity.
  - apply list_elem_of_here.
  - intros s (pkgPath & pkgData & version & Hin & Hpath & Hversion & -> & Hreg).
    apply elem_of_cons in Hin as [Hin|Hin]; [by injection Hin as -> _|].
    apply list_elem_of_singleton in Hin. injection Hin as -> ->.
    injection Hversion as <-.
    apply list_elem_of_singleton in Hreg. discriminate Hreg.
Defined.

Lemma infection_consistent_run_witness :
  infection_consistent Scenario.infected_entry.
Proof.
  exact (proj1 (proj2 (proj2
           (infection_consistent_run Scenario.registry Scenario.yaml_Unmarshal
              Scenario.json_Unmarshal Scenario.client 1 "org" Scenario.order
              Scenario.scanned (Scenario.final Scenario.result_lock)
              Scenario.scan_output (output Scenario.result_lock)
              (Scenario_scan _ _) Scenario_lock)))
           "actor/action@v1" Scenario.infected_entry Scenario_infected_entry).
Defined.

Lemma Repos_nonempty_run_witness :
  Repos Scenario.infected_entry ≠ ∅.
Proof.
  exact (proj2 (proj2 (proj2
           (Repos_nonempty_run Scenario.registry Scenario.yaml_Unmarshal
              Scenario.json_Unmarshal Scenario.client 1 "org" Scenario.order
              Scenario.scanned (Scenario.final Scenario.result_lock)
              Scenario.scan_output (output Scenario.result_lock)
              (Scenario_scan _ _) Scenario_lock)))
           "actor/action@v1" Scenario.infected_entry Scenario_infected_entry).
Defined.

Lemma analyzeActions_analyzed_witness :
  Analyzed Scenario.infected_entry = true.
Proof.
  exact (proj1
           (analyzeActions_analyzed Scenario.registry Scenario.yaml_Unmarshal
              Scenario.json_Unmarshal Scenario.client 1 "org" Scenario.order
              Scenario.scanned (Scenario.final Scenario.result_lock)
              Scenario.scan_output (output Scenario.result_lock)
              "actor/action@v1" Scenario.infected_entry
              (Scenario_scan _ _) Scenario_order Scenario_lock Scenario_infected_entry)
           eq_refl).
Defined.

(** C5 as stated fails on the bare reference [checkout] of the workflow:
    it has no owner, the analysis skips it, and after the pass its entry
    still has [analyzed = false]. *)
Lemma analyzeActions_skips_malformed :
  scanRepositories Scenario.yaml_Unmarshal Scenario.client 1 "org"
    = Some (Done Scenario.scanned Scenario.scan_output)
  ∧ range_order Scenario.scanned Scenario.order
  ∧ analyzeActions Scenario.registry Scenario.json_Unmarshal Scenario.client
      Scenario.order Scenario.scanned
    = Done (Scenario.final Scenario.result_lock) (output Scenario.result_lock)
  ∧ parseActionReference "checkout" = ("", "")
  ∧ Scenario.final Scenario.result_lock !! "checkout" = Some Scenario.skipped_entry
  ∧ Analyzed Scenario.skipped_entry = false.
Proof.
  split; [apply Scenario_scan|]. split; [apply Scenario_order|].
  split; [apply Scenario_lock|]. split; [reflexivity|].
  split; [apply Scenario_skipped_entry | reflexivity].
Qed.

Lemma no_lock_file_witness :
  Analyzed Scenario.npm_entry = true
  ∧ IsInfected Scenario.npm_entry = false ∧ InfectedPackages Scenario.npm_entry = []
  ∧ UsesNpm Scenario.npm_entry = true.
Proof.
  destruct (no_lock_file Scenario.registry Scenario.yaml_Unmarshal
              Scenario.json_Unmarshal Scenario.client_package_json 1 "org" Scenario.order
              Scenario.scanned (Scenario.final Scenario.result_package_json)
              Scenario.scan_output (output Scenario.result_package_json)
              "actor/action@v1" Scenario.npm_entry (ErrorResponse 404 "404 Not Found")
              (Scenario_scan _ _) Scenario_order Scenario_package_json
              Scenario_package_json_entry eq_refl eq_refl)
    as (Han & Hinf & Hpk & Hnpm & _).
  exact (conj Han (conj Hinf (conj Hpk Hnpm))).
Defined.

Lemma lock_file_without_packages_witness :
  UsesNpm Scenario.npm_entry = true
  ∧ IsInfected Scenario.npm_entry = false ∧ InfectedPackages Scenario.npm_entry = [].
Proof.
  destruct (lock_file_without_packages Scenario.registry Scenario.yaml_Unmarshal
              Scenario.json_Unmarshal Scenario.client_broken_lock 1 "org" Scenario.order
              Scenario.scanned (Scenario.final Scenario.result_broken_lock)
              Scenario.scan_output (output Scenario.result_broken_lock)
              "actor/action@v1" Scenario.npm_entry Scenario.broken_lock_file
              (Scenario_scan _ _) Scenario_order Scenario_broken_lock
              Scenario_broken_lock_entry eq_refl eq_refl I)
    as (Hnpm & Hinf & Hpk & _).
  exact (conj Hnpm (conj Hinf Hpk)).
Defined.

(** * Further properties of the program *)

(** ** More about splitting *)

Module SplitFacts.
Import Strings.

#[local] Arguments String.append !_ _ / : simpl nomatch.

Lemma length_drop (n : nat) (s : string) :
  String.length (drop n s) = (String.length s - n)%nat.
Proof.
  revert s; induction n as [|n IH]; intros [|c s]; simpl; try done.
  all: try apply IH.
Qed.

Lemma length_take (n : nat) (s : string) : (String.length (take n s) ≤ n)%nat.
Proof.
  revert s; induction n as [|n IH]; intros [|c s]; simpl; try lia.
  specialize (IH s). lia.
Qed.

Lemma take_all (s : string) : take (String.length s) s = s.
Proof. induction s as [|c s IH]; simpl; [done | by rewrite IH]. Qed.

Lemma take_app_le (n : nat) (a b : string) :
  (n ≤ String.length a)%nat → take n (a +:+ b) = take n a.
Proof.
  revert a; induction n as [|n IH]; intros [|c a]; simpl; try done; try lia.
  intros Hn. rewrite IH; [done | lia].
Qed.

Lemma genSplit_nonempty (n : nat) (s sep : string) : genSplit n s sep ≠ [].
Proof. destruct n; simpl; [done|]. by destruct (Index s sep). Qed.

Lemma concat_cons (sep x : string) (l : list string) :
  l ≠ [] → String.concat sep (x :: l) = x +:+ sep +:+ String.concat sep l.
Proof. by destruct l. Qed.

(** Joining the pieces with the separator gives the string back. *)
Lemma genSplit_join (n : nat) (s sep : string) :
  String.concat sep (genSplit n s sep) = s.
Proof.
  revert s; induction n as [|n IH]; intros s; simpl; [done|].
  destruct (Index s sep) as [m|] eqn:Hm; [|done].
  rewrite concat_cons by apply genSplit_nonempty. rewrite IH.
  by destruct (StringFacts.Index_Some _ _ _ Hm) as [<- _].
Qed.

Lemma explode_join (s : string) : String.concat "" (explode s) = s.
Proof.
  induction s as [|c s IH]; [done|].
  change (explode (String c s)) with (String c "" :: explode s).
  destruct (explode s) as [|x l] eqn:He.
  - destruct s; [done | discriminate He].
  - rewrite concat_cons by done. by rewrite IH.
Qed.

(** A string that contains the separator splits around it. *)
Lemma Contains_inv (s sep : string) :
  Contains s sep = true → ∃ x y, s = x +:+ sep +:+ y.
Proof.
  unfold Contains. destruct (Index s sep) as [m|] eqn:Hm; [|done].
  intros _. destruct (StringFacts.Index_Some _ _ _ Hm) as [Hs _]. eauto.
Qed.

Lemma Contains_substring (s a p b sep : string) :
  s = a +:+ p +:+ b → Contains s sep = false → Contains p sep = false.
Proof.
  intros -> Hs. destruct (Contains p sep) eqn:Hp; [|done].
  apply Contains_inv in Hp as (x & y & ->).
  rewrite <-(StringFacts.app_assoc a), !StringFacts.app_assoc in Hs.
  rewrite <-(StringFacts.app_assoc a x) in Hs.
  by rewrite StringFacts.Contains_app in Hs.
Qed.

(** What precedes the first separator holds no separator. *)
Lemma take_Index_clean (s sep : string) (m : nat) :
  sep ≠ "" → Index s sep = Some m → Contains (take m s) sep = false.
Proof.
  intros Hsep Hm. destruct (Contains (take m s) sep) eqn:Hc; [|done].
  apply Contains_inv in Hc as (x & y & Hxy).
  pose proof (StringFacts.take_drop m s) as Hs. rewrite Hxy in Hs.
  rewrite !StringFacts.app_assoc in Hs.
  destruct (StringFacts.Index_first x (y +:+ drop m s) sep) as (m' & Hm' & Hle).
  rewrite Hs, Hm in Hm'. injection Hm' as <-.
  pose proof (length_take m s) as Hlen. rewrite Hxy, !StringFacts.length_app in Hlen.
  destruct sep; [done|]. simpl in Hlen. lia.
Qed.

Lemma Index_empty (sep : string) : sep ≠ "" → Index "" sep = None.
Proof. by destruct sep. Qed.

(** With fuel for the whole string no piece holds the separator, and
    every piece is a part of the string. *)
Lemma genSplit_clean (n : nat) (s sep : string) :
  sep ≠ "" → (String.length s ≤ n)%nat →
  Forall (λ p, Contains p sep = false) (genSplit n s sep).
Proof.
  intros Hsep. revert s; induction n as [|n IH]; intros s Hn; simpl.
  - destruct s; [|simpl in Hn; lia].
    apply Forall_singleton. unfold Contains. by rewrite Index_empty.
  - destruct (Index s sep) as [m|] eqn:Hm.
    + apply Forall_cons. split; [by apply take_Index_clean|].
      apply IH. rewrite length_drop. destruct sep; [done|]. simpl. lia.
    + apply Forall_singleton. unfold Contains. by rewrite Hm.
Qed.

Lemma genSplit_parts (n : nat) (s sep p : string) :
  p ∈ genSplit n s sep → ∃ a b, s = a +:+ p +:+ b.
Proof.
  revert s; induction n as [|n IH]; intros s; simpl.
  - intros ->%list_elem_of_singleton. exists "", "". by rewrite StringFacts.app_nil_r.
  - destruct (Index s sep) as [m|] eqn:Hm.
    + destruct (StringFacts.Index_Some _ _ _ Hm) as [Hs _].
      intros [->|Hin]%elem_of_cons.
      * exists "". eexists. exact Hs.
      * destruct (IH _ Hin) as (a & b & Hab).
        exists (take m s +:+ sep +:+ a), b.
        rewrite !StringFacts.app_assoc, <-Hab. exact Hs.
    + intros ->%list_elem_of_singleton. exists "", "". by rewrite StringFacts.app_nil_r.
Qed.

(** The result does not depend on fuel beyond the length. *)
Lemma genSplit_fuel (n n' : nat) (s sep : string) :
  sep ≠ "" → (String.length s ≤ n)%nat → (String.length s ≤ n')%nat →
  genSplit n s sep = genSplit n' s sep.
Proof.
  intros Hsep. destruct sep as [|c0 sep]; [done|]. clear Hsep.
  revert n' s; induction n as [|n IH]; intros n' s Hn Hn'.
  - destruct s; [|simpl in Hn; lia]. by destruct n'.
  - destruct n' as [|n'].
    + destruct s; [|simpl in Hn'; lia]. done.
    + cbn [genSplit]. destruct (Index s _) as [m|]; [|done]. f_equal.
      apply IH; rewrite length_drop; simpl; lia.
Qed.

(** The first piece. *)
Lemma hd_genSplit (n : nat) (s sep : string) :
  hd "" (genSplit (S n) s sep)
  = match Index s sep with Some m => take m s | None => s end.
Proof. simpl. by destruct (Index s sep). Qed.

(** Searching for a single byte. *)
Lemma Index_char_app (x y : string) (c : ascii) :
  Index (x +:+ String c y) (String c "")
  = Some (default (String.length x) (Index x (String c ""))).
Proof.
  induction x as [|a x IH]; simpl.
  - by rewrite Ascii.eqb_refl.
  - destruct (Ascii.eqb a c); [done|]. rewrite IH. by destruct (Index x _).
Qed.

Lemma Index_char_skip (a t : string) (c : ascii) :
  Contains a (String c "") = false →
  Index (a +:+ t) (String c "") = (λ j, String.length a + j)%nat <$> Index t (String c "").
Proof.
  unfold Contains. induction a as [|x a IH]; simpl.
  - intros _. by destruct (Index t _).
  - destruct (Ascii.eqb x c); [done|].
    destruct (Index a _) eqn:Ha; [done|]. intros _.
    rewrite IH by done. by destruct (Index t _).
Qed.

Lemma Contains_char_app (a b : string) (c : ascii) :
  Contains (a +:+ b) (String c "") = Contains a (String c "") || Contains b (String c "").
Proof.
  destruct (Contains a (String c "")) eqn:Ha; simpl.
  - apply Contains_inv in Ha as (x & y & ->).
    by rewrite !StringFacts.app_assoc, StringFacts.Contains_app.
  - unfold Contains. rewrite Index_char_skip by done. by destruct (Index b _).
Qed.

End SplitFacts.

Lemma Split_char (s : string) (c : ascii) :
  Strings.Split s (String c "") = Strings.genSplit (String.length s) s (String c "").
Proof. reflexivity. Qed.

Lemma hd_Split_char (s : string) (c : ascii) :
  hd "" (Strings.Split s (String c ""))
  = match Strings.Index s (String c "") with
    | Some m => Strings.take m s
    | None => s
    end.
Proof.
  rewrite Split_char. destruct s as [|a s]; [done|].
  apply SplitFacts.hd_genSplit.
Qed.

Lemma take_app_add (a t : string) (j : nat) :
  Strings.take (String.length a + j) (a +:+ t) = a +:+ Strings.take j t.
Proof.
  induction a as [|x a IH]; [done|].
  change (String x a +:+ t) with (String x (a +:+ t)).
  change (String x a +:+ Strings.take j t) with (String x (a +:+ Strings.take j t)).
  simpl. by rewrite IH.
Qed.

Lemma hd_Split_app (a t : string) (c : ascii) :
  Strings.Contains a (String c "") = false →
  hd "" (Strings.Split (a +:+ t) (String c ""))
  = a +:+ hd "" (Strings.Split t (String c "")).
Proof.
  intros Ha. rewrite !hd_Split_char, SplitFacts.Index_char_skip by done.
  destruct (Strings.Index t _) as [j|]; simpl; [apply take_app_add | done].
Qed.

Lemma Split_cons_char (a z : string) (c : ascii) :
  Strings.Contains a (String c "") = false →
  Strings.Split (a +:+ String c z) (String c "") = a :: Strings.Split z (String c "").
Proof.
  intros Ha. rewrite !Split_char, StringFacts.length_app.
  change (String.length (String c z)) with (S (String.length z)).
  rewrite Nat.add_succ_r.
  assert (Strings.Index (a +:+ String c z) (String c "") = Some (String.length a)) as Hi.
  { rewrite SplitFacts.Index_char_app. unfold Strings.Contains in Ha.
    by destruct (Strings.Index a _). }
  rewrite (StringFacts.genSplit_cut _ _ _ _ Hi), StringFacts.take_app.
  rewrite <-StringFacts.drop_drop, StringFacts.drop_app. f_equal.
  apply SplitFacts.genSplit_fuel; [done|lia|lia].
Qed.

(** ** Action references *)

(** X1.  The version after the [@] plays no part in which repository
    [parseActionReference] names: a reference with [@ref] appended is
    parsed like the reference without it, whatever [ref] is. *)
Theorem parseActionReference_ref (actionUse ref : string) :
  parseActionReference (actionUse +:+ "@" +:+ ref) = parseActionReference actionUse.
Proof.
  unfold parseActionReference.
  replace (hd "" (Strings.Split (actionUse +:+ "@" +:+ ref) "@"))
    with (hd "" (Strings.Split actionUse "@")); [done|].
  symmetry. rewrite !hd_Split_char.
  change ("@" +:+ ref) with (String "@" ref).
  rewrite SplitFacts.Index_char_app.
  destruct (Strings.Index actionUse "@") as [m|] eqn:Hm; simpl.
  - destruct (StringFacts.Index_Some _ _ _ Hm) as [_ Hle].
    by apply SplitFacts.take_app_le.
  - apply StringFacts.take_app.
Qed.

Lemma Split_no_char (s : string) (c : ascii) :
  Strings.Contains s (String c "") = false → Strings.Split s (String c "") = [s].
Proof.
  intros H. rewrite Split_char.
  by apply StringFacts.genSplit_no_sep, StringFacts.Contains_false.
Qed.

(** X2.  A reference [owner/repo], followed by nothing, by a path below
    the repository or by a version, is parsed into that owner and that
    repository name, when neither of them holds a [/] or an [@]. *)
Theorem parseActionReference_owner_repo (owner repo tail : string) :
  Strings.Contains owner "/" = false → Strings.Contains owner "@" = false →
  Strings.Contains repo "/" = false → Strings.Contains repo "@" = false →
  tail = "" ∨ Strings.HasPrefix tail "/" = true ∨ Strings.HasPrefix tail "@" = true →
  parseActionReference (owner +:+ "/" +:+ repo +:+ tail) = (owner, repo).
Proof.
  intros Ho1 Ho2 Hr1 Hr2 Htail. unfold parseActionReference.
  assert (∃ t, hd "" (Strings.Split tail "@") = t
               ∧ (t = "" ∨ ∃ r, t = String "/" r)) as (t & Ht & Hshape).
  { eexists. split; [done|].
    destruct Htail as [->|[Hp|Hp]]; [by left|..];
      apply StringFacts.HasPrefix_inv in Hp; simpl in Hp; rewrite Hp.
    - right. change (String "/" ?r) with ("/" +:+ r).
      rewrite hd_Split_app by done. by eexists.
    - left. by rewrite hd_Split_char. }
  assert (hd "" (Strings.Split (owner +:+ "/" +:+ repo +:+ tail) "@")
          = owner +:+ String "/" (repo +:+ t)) as ->.
  { replace (owner +:+ "/" +:+ repo +:+ tail) with ((owner +:+ "/" +:+ repo) +:+ tail)
      by (by rewrite !StringFacts.app_assoc).
    rewrite hd_Split_app, Ht.
    - by rewrite !StringFacts.app_assoc.
    - rewrite !SplitFacts.Contains_char_app, Ho2, Hr2. done. }
  rewrite Split_cons_char by done.
  destruct Hshape as [->|[r ->]].
  - rewrite StringFacts.app_nil_r, Split_no_char by done. done.
  - by rewrite Split_cons_char.
Qed.

Lemma parseActionReference_owner_repo_witness :
  parseActionReference "actions/setup-node/subdir@v4" = ("actions", "setup-node").
Proof.
  apply (parseActionReference_owner_repo "actions" "setup-node" "/subdir@v4");
    first [reflexivity | right; left; reflexivity].
Defined.

Lemma hd_elem_of {A} (d : A) (l : list A) : l ≠ [] → hd d l ∈ l.
Proof. destruct l; [done|]. intros _. by left. Qed.

(** X3.  The owner and the repository name that [parseActionReference]
    returns never hold a [/] or an [@], whatever the reference is. *)
Theorem parseActionReference_clean (actionUse : string) :
  Strings.Contains (owner_of actionUse) "/" = false
  ∧ Strings.Contains (owner_of actionUse) "@" = false
  ∧ Strings.Contains (repo_of actionUse) "/" = false
  ∧ Strings.Contains (repo_of actionUse) "@" = false.
Proof.
  unfold owner_of, repo_of, parseActionReference.
  set (h := hd "" (Strings.Split actionUse "@")).
  assert (Strings.Contains h "@" = false) as Hh.
  { pose proof (SplitFacts.genSplit_clean (String.length actionUse) actionUse "@"
                  ltac:(done) (le_n _)) as Hall.
    rewrite Forall_forall in Hall. apply Hall, hd_elem_of, SplitFacts.genSplit_nonempty. }
  pose proof (SplitFacts.genSplit_clean (String.length h) h "/" ltac:(done) (le_n _)) as Hslash.
  assert (Forall (λ p, Strings.Contains p "@" = false) (Strings.Split h "/")) as Hat.
  { apply Forall_forall. intros p Hp.
    destruct (SplitFacts.genSplit_parts _ _ _ _ Hp) as (a & b & Hab).
    by eapply SplitFacts.Contains_substring. }
  change (Strings.genSplit (String.length h) h "/") with (Strings.Split h "/") in Hslash.
  destruct (Strings.Split h "/") as [|o [|r l]]; simpl; [done..|].
  apply Forall_cons in Hslash as [? [? _]%Forall_cons].
  apply Forall_cons in Hat as [? [? _]%Forall_cons]. done.
Qed.

(** ** Package names and splitting *)

(** X4.  The name that [extractPackageName] returns never holds a
    [/node_modules/], whatever the path is. *)
Theorem extractPackageName_clean (pkgPath : string) :
  Strings.Contains (extractPackageName pkgPath) node_modules_sep = false.
Proof.
  destruct (Strings.Contains (Strings.TrimPrefix pkgPath node_modules_prefix)
              node_modules_sep) eqn:Hc.
  2:{ by rewrite extractPackageName_no_sep. }
  unfold extractPackageName.
  set (pkgName := Strings.TrimPrefix pkgPath node_modules_prefix) in *.
  rewrite Hc, andb_false_r, Split_node_modules.
  pose proof (SplitFacts.genSplit_clean (String.length pkgName) pkgName node_modules_sep
                ltac:(done) (le_n _)) as Hall.
  pose proof (SplitFacts.genSplit_join (String.length pkgName) pkgName node_modules_sep) as Hjoin.
  destruct (Strings.genSplit _ _ _) as [|p [|q l]] eqn:Hparts; simpl.
  - by destruct (SplitFacts.genSplit_nonempty _ _ _ Hparts).
  - simpl in Hjoin. subst p. by apply (proj1 (Forall_singleton _ _)) in Hall.
  - rewrite Forall_forall in Hall. apply Hall.
    change (List.last (q :: l) pkgName ∈ p :: q :: l). right.
    clear. revert q. induction l as [|x l IH]; intros q; simpl; [by left|]. right. apply IH.
Qed.

(** X5.  Joining the pieces of [strings.Split] with the separator gives
    the string back, and for a non-empty separator no piece holds the
    separator. *)
Theorem Split_join (s sep : string) :
  String.concat sep (Strings.Split s sep) = s
  ∧ (sep ≠ "" → Forall (λ p, Strings.Contains p sep = false) (Strings.Split s sep)).
Proof.
  unfold Strings.Split. destruct sep as [|c sep].
  - split; [apply SplitFacts.explode_join | done].
  - split; [apply SplitFacts.genSplit_join|].
    intros _. by apply SplitFacts.genSplit_clean.
Qed.

(** ** Traces and exits *)

Lemma output_prepend {A} (o : list event) (m : outcome A) :
  output (prepend o m) = o ++ output m.
Proof. by destruct m. Qed.

Lemma elem_of_output_bind {A B} (m : outcome A) (f : A → outcome B) e :
  e ∈ output (m ≫= f) → e ∈ output m ∨ ∃ a o, m = Done a o ∧ e ∈ output (f a).
Proof.
  destruct m as [a o| |]; simpl; [|by left..].
  rewrite output_prepend. intros [?|?]%elem_of_app; [by left|]. right. by exists a, o.
Qed.

Lemma ends_bind {A B} (F P : Prop) (m : outcome A) (f : A → outcome B) :
  ends F P m → (∀ a, ends F P (f a)) → ends F P (m ≫= f).
Proof.
  destruct m as [a o| |]; simpl; [|done..]. intros _ Hf. specialize (Hf a).
  by destruct (f a).
Qed.

Lemma ends_prepend {A} (F P : Prop) (o : list event) (m : outcome A) :
  ends F P m → ends F P (prepend o m).
Proof. by destruct m. Qed.

Lemma ends_impl {A} (F P F' P' : Prop) (m : outcome A) :
  (F → F') → (P → P') → ends F P m → ends F' P' m.
Proof. destruct m; simpl; auto. Qed.

Section ScanTrace.

Variable yaml_Unmarshal : string → document + error.
Variable client : Client.

Lemma extractActionsFromWorkflow_output workflowContent repoName m e :
  e ∈ output (extractActionsFromWorkflow yaml_Unmarshal workflowContent repoName m) →
  ∃ text, e = Logged text.
Proof.
  unfold extractActionsFromWorkflow.
  destruct (yaml_Unmarshal workflowContent) as [workflow|err]; simpl.
  - destruct (as_map _); simpl; by intros ?%not_elem_of_nil.
  - intros ->%list_elem_of_singleton. by eexists.
Qed.

Lemma extractActionsFromWorkflow_ends workflowContent repoName m :
  ends False False (extractActionsFromWorkflow yaml_Unmarshal workflowContent repoName m).
Proof.
  unfold extractActionsFromWorkflow.
  destruct (yaml_Unmarshal workflowContent); [|done]. by destruct (as_map _).
Qed.

Lemma processWorkflowFile_requests org repoName content m owner repo path :
  Request owner repo path
  ∈ output (processWorkflowFile yaml_Unmarshal client org repoName content m) →
  owner = org ∧ repo = repoName ∧ path = GetPath content.
Proof.
  unfold processWorkflowFile. intros [He|(_ & _ & _ & He)]%elem_of_output_bind.
  { apply list_elem_of_singleton in He. by injection He. }
  destruct (GetContents client org repoName (GetPath content)) as [f|l|err]; simpl in He.
  - destruct (GetContent f) as [decoded|err].
    + by apply extractActionsFromWorkflow_output in He as [? ?].
    + by apply list_elem_of_singleton in He.
  - by apply not_elem_of_nil in He.
  - by apply list_elem_of_singleton in He.
Qed.

Lemma processWorkflowFile_ends org repoName content m :
  ends False (∃ l, GetContents client org repoName (GetPath content) = Directory l)
       (processWorkflowFile yaml_Unmarshal client org repoName content m).
Proof.
  unfold processWorkflowFile. apply ends_bind; [done|]. intros _.
  destruct (GetContents client org repoName (GetPath content)) as [f|l|err]; simpl;
    [|by eexists|done].
  destruct (GetContent f); [|done].
  eapply ends_impl, extractActionsFromWorkflow_ends; done.
Qed.

Lemma processContents_requests org repoName contents m owner repo path :
  Request owner repo path
  ∈ output (processContents yaml_Unmarshal client org repoName contents m) →
  owner = org ∧ repo = repoName
  ∧ ∃ content, content ∈ contents ∧ isWorkflowFile content = true ∧ path = GetPath content.
Proof.
  revert m; induction contents as [|content rest IH]; intros m; simpl.
  { by intros ?%not_elem_of_nil. }
  destruct (isWorkflowFile content) eqn:Hw.
  - intros [He|(m' & _ & _ & He)]%elem_of_output_bind.
    + apply processWorkflowFile_requests in He as (-> & -> & ->).
      split; [done|]. split; [done|]. exists content. split; [by left | done].
    + destruct (IH _ He) as (-> & -> & c & Hc & Hwc & ->).
      split; [done|]. split; [done|]. exists c. split; [by right | done].
  - intros He. destruct (IH _ He) as (-> & -> & c & Hc & Hwc & ->).
    split; [done|]. split; [done|]. exists c. split; [by right | done].
Qed.

Lemma processContents_ends org repoName contents m :
  ends False
       (∃ content l, content ∈ contents ∧ isWorkflowFile content = true
                     ∧ GetContents client org repoName (GetPath content) = Directory l)
       (processContents yaml_Unmarshal client org repoName contents m).
Proof.
  revert m; induction contents as [|content rest IH]; intros m; simpl; [done|].
  assert (∀ m', ends False
            (∃ c l, c ∈ content :: rest ∧ isWorkflowFile c = true
                    ∧ GetContents client org repoName (GetPath c) = Directory l)
            (processContents yaml_Unmarshal client org repoName rest m')) as Hrest.
  { intros m'. eapply ends_impl, IH; [done|].
    intros (c & l & Hc & Hw & Hl). exists c, l. split; [by right | done]. }
  destruct (isWorkflowFile content) eqn:Hw; [|apply Hrest].
  apply ends_bind; [|apply Hrest].
  eapply ends_impl, processWorkflowFile_ends; [done|].
  intros [l Hl]. exists content, l. split; [by left | done].
Qed.

(** The requests of [processRepository]: the workflow directory of the
    repository, and the workflow files that its listing names. *)
Lemma processRepository_requests org repoName m owner repo path :
  Request owner repo path ∈ output (processRepository yaml_Unmarshal client org repoName m) →
  owner = org ∧ repo = repoName
  ∧ (path = workflows_dir
     ∨ ∃ contents content,
         GetContents client org repoName workflows_dir = Directory contents
         ∧ content ∈ contents ∧ isWorkflowFile content = true ∧ path = GetPath content).
Proof.
  unfold processRepository. intros [He|(_ & _ & _ & He)]%elem_of_output_bind.
  { apply list_elem_of_singleton in He. injection He as -> -> ->. by eauto. }
  destruct (GetContents client org repoName workflows_dir) as [f|contents|err] eqn:Hdir;
    simpl in He.
  - by apply not_elem_of_nil in He.
  - apply processContents_requests in He as (-> & -> & c & Hc & Hw & ->).
    split; [done|]. split; [done|]. right. by exists contents, c.
  - destruct err; simpl in He;
      [by apply not_elem_of_nil in He | by apply list_elem_of_singleton in He].
Qed.

Lemma processRepository_ends org repoName m :
  ends False
       (∃ contents content l,
          GetContents client org repoName workflows_dir = Directory contents
          ∧ content ∈ contents ∧ isWorkflowFile content = true
          ∧ GetContents client org repoName (GetPath content) = Directory l)
       (processRepository yaml_Unmarshal client org repoName m).
Proof.
  unfold processRepository. apply ends_bind; [done|]. intros _.
  destruct (GetContents client org repoName workflows_dir) as [f|contents|err] eqn:Hdir;
    [done| |by destruct err].
  eapply ends_impl, processContents_ends; [done|].
  intros (c & l & H). by exists contents, c, l.
Qed.

End ScanTrace.

Section ScanRun.

Variable yaml_Unmarshal : string → document + error.
Variable client : Client.

Lemma logRepoProgress_output repoCount repoName :
  ∃ text, logRepoProgress repoCount repoName = Done () [Stdout text].
Proof. unfold logRepoProgress. destruct enableLimit; by eexists. Qed.

Lemma scanPage_requests org repos repoCount m owner repo path :
  Request owner repo path ∈ output (scanPage yaml_Unmarshal client org repos repoCount m) →
  owner = org ∧ repo ∈ repos
  ∧ (path = workflows_dir
     ∨ ∃ contents content,
         GetContents client org repo workflows_dir = Directory contents
         ∧ content ∈ contents ∧ isWorkflowFile content = true ∧ path = GetPath content).
Proof.
  revert repoCount m; induction repos as [|repoName rest IH]; intros repoCount m.
  { by intros ?%not_elem_of_nil. }
  rewrite scanPage_cons. destruct (shouldStopScanning repoCount).
  { simpl. by intros ?%list_elem_of_singleton. }
  destruct (logRepoProgress_output repoCount repoName) as [text ->].
  intros [He|(_ & _ & _ & [He|(m' & _ & _ & He)]%elem_of_output_bind)]%elem_of_output_bind.
  - by apply list_elem_of_singleton in He.
  - apply processRepository_requests in He as (-> & -> & Hpath).
    split; [done|]. split; [by left | done].
  - destruct (IH _ _ He) as (-> & Hin & Hpath). split; [done|]. split; [by right | done].
Qed.

Lemma scanPage_ends org repos repoCount m :
  ends False
       (∃ repoName contents content l,
          repoName ∈ repos
          ∧ GetContents client org repoName workflows_dir = Directory contents
          ∧ content ∈ contents ∧ isWorkflowFile content = true
          ∧ GetContents client org repoName (GetPath content) = Directory l)
       (scanPage yaml_Unmarshal client org repos repoCount m).
Proof.
  revert repoCount m; induction repos as [|repoName rest IH]; intros repoCount m; [done|].
  rewrite scanPage_cons. destruct (shouldStopScanning repoCount); [done|].
  destruct (logRepoProgress_output repoCount repoName) as [text ->].
  apply ends_bind; [done|]. intros _. apply ends_bind.
  - eapply ends_impl, processRepository_ends; [done|].
    intros (cs & c & l & H). exists repoName, cs, c, l. split; [by left | done].
  - intros m'. eapply ends_impl, IH; [done|].
    intros (r & cs & c & l & Hr & H). exists r, cs, c, l. split; [by right | done].
Qed.

Lemma scanPages_requests fuel org page repoCount m res owner repo path :
  scanPages yaml_Unmarshal client fuel org page repoCount m = Some res →
  Request owner repo path ∈ output res →
  owner = org
  ∧ (∃ pg repos next, ListByOrg client org pg = Page repos next ∧ repo ∈ repos)
  ∧ (path = workflows_dir
     ∨ ∃ contents content,
         GetContents client org repo workflows_dir = Directory contents
         ∧ content ∈ contents ∧ isWorkflowFile content = true ∧ path = GetPath content).
Proof.
  revert page repoCount m res; induction fuel as [|fuel IH]; intros page repoCount m res; [done|].
  rewrite scanPages_step.
  destruct (ListByOrg client org page) as [repos next|err] eqn:Hpage.
  2:{ intros [= <-]. simpl. rewrite !elem_of_cons.
      by intros [?|[?|?%not_elem_of_nil]]. }
  pose proof (scanPage_requests org repos repoCount m owner repo path) as Hreq.
  assert (∀ o, output (scanPage yaml_Unmarshal client org repos repoCount m) = o →
               Request owner repo path ∈ ListRequest org page :: o →
               owner = org
               ∧ (∃ pg repos next, ListByOrg client org pg = Page repos next ∧ repo ∈ repos)
               ∧ (path = workflows_dir
                  ∨ ∃ contents content,
                      GetContents client org repo workflows_dir = Directory contents
                      ∧ content ∈ contents ∧ isWorkflowFile content = true
                      ∧ path = GetPath content)) as Hhere.
  { intros o Ho [?|He]%elem_of_cons; [done|]. rewrite <-Ho in He.
    destruct (Hreq He) as (-> & Hin & Hpath). split; [done|]. split; [|done].
    by exists page, repos, next. }
  destruct (scanPage _ _ _ _ _ _) as [[m'|repoCount' m'] o| |] eqn:Hscan;
    try (intros [= <-]; by apply Hhere).
  destruct (_ || _); [intros [= <-]; by apply Hhere|].
  destruct (scanPages _ _ fuel _ _ _ _) as [res'|] eqn:Hrest; [|done].
  intros [= <-]. rewrite output_prepend.
  intros [He|He]%elem_of_app; [by eapply Hhere | by eapply IH].
Qed.

Lemma scanPages_ends fuel org page repoCount m res :
  scanPages yaml_Unmarshal client fuel org page repoCount m = Some res →
  ends (∃ pg err, ListByOrg client org pg = ListErr err)
       (∃ pg repos next repoName contents content l,
          ListByOrg client org pg = Page repos next ∧ repoName ∈ repos
          ∧ GetContents client org repoName workflows_dir = Directory contents
          ∧ content ∈ contents ∧ isWorkflowFile content = true
          ∧ GetContents client org repoName (GetPath content) = Directory l)
       res.
Proof.
  revert page repoCount m res; induction fuel as [|fuel IH]; intros page repoCount m res; [done|].
  rewrite scanPages_step.
  destruct (ListByOrg client org page) as [repos next|err] eqn:Hpage.
  2:{ intros [= <-]. simpl. by exists page, err. }
  pose proof (scanPage_ends org repos repoCount m) as Hends.
  destruct (scanPage _ _ _ _ _ _) as [[m'|repoCount' m'] o| |] eqn:Hscan; simpl in Hends;
    try (by intros [= <-]).
  - destruct (_ || _); [by intros [= <-]|].
    destruct (scanPages _ _ fuel _ _ _ _) as [res'|] eqn:Hrest; [|done].
    intros [= <-]. apply ends_prepend. by eapply IH.
  - intros [= <-]. simpl. destruct Hends as (r & cs & c & l & Hr & H).
    by exists page, repos, next, r, cs, c, l.
Qed.

End ScanRun.

(** ** What the scan asks for, and how it can end *)

(** X6.  Every contents request of the scan goes to a repository that
    a page of the listing of the organisation names, and asks for the
    workflow directory or for a workflow file that the listing of that
    directory names. *)
Theorem scanRepositories_requests
    (yaml_Unmarshal : string → document + error) (client : Client)
    (fuel : nat) (org : string) (res : outcome usage) (owner repo path : string) :
  scanRepositories yaml_Unmarshal client fuel org = Some res →
  Request owner repo path ∈ output res →
  owner = org
  ∧ (∃ page repos next, ListByOrg client org page = Page repos next ∧ repo ∈ repos)
  ∧ (path = workflows_dir
     ∨ ∃ contents content,
         GetContents client org repo workflows_dir = Directory contents
         ∧ content ∈ contents ∧ isWorkflowFile content = true ∧ path = GetPath content).
Proof. apply scanPages_requests. Qed.

Lemma scanRepositories_requests_witness :
  "org" = "org"
  ∧ (∃ page repos next,
       ListByOrg Scenario.client "org" page = Page repos next ∧ "app" ∈ repos)
  ∧ (".github/workflows/ci.yml" = workflows_dir
     ∨ ∃ contents content,
         GetContents Scenario.client "org" "app" workflows_dir = Directory contents
         ∧ content ∈ contents ∧ isWorkflowFile content = true
         ∧ ".github/workflows/ci.yml" = GetPath content).
Proof.
  apply (scanRepositories_requests Scenario.yaml_Unmarshal Scenario.client 1 "org"
           (Done Scenario.scanned Scenario.scan_output)).
  - apply Scenario_scan.
  - simpl. do 3 right. left.
Defined.

(** X7.  The scan exits through [log.Fatalf] only when the listing of a
    page of repositories has failed; no failure below a repository is
    fatal.  It panics only when the request for a workflow file, named
    as a file by the listing of its directory, is answered with a
    directory listing. *)
Theorem scanRepositories_ends
    (yaml_Unmarshal : string → document + error) (client : Client)
    (fuel : nat) (org : string) (res : outcome usage) :
  scanRepositories yaml_Unmarshal client fuel org = Some res →
  ends (∃ page err, ListByOrg client org page = ListErr err)
       (∃ page repos next repoName contents content l,
          ListByOrg client org page = Page repos next ∧ repoName ∈ repos
          ∧ GetContents client org repoName workflows_dir = Directory contents
          ∧ content ∈ contents ∧ isWorkflowFile content = true
          ∧ GetContents client org repoName (GetPath content) = Directory l)
       res.
Proof. apply scanPages_ends. Qed.

Lemma scanRepositories_ends_witness :
  ∃ page err, ListByOrg Failures.client_no_listing "org" page = ListErr err.
Proof.
  apply (scanRepositories_ends Scenario.yaml_Unmarshal Failures.client_no_listing 1 "org"
           (Fatal [ListRequest "org" 0;
                   Logged "Error listing repositories: dial tcp: i/o timeout"])).
  reflexivity.
Defined.

Example scan_panics :
  ∃ o, scanRepositories Scenario.yaml_Unmarshal Failures.client_directory 1 "org"
       = Some (Panic o).
Proof. by eexists. Qed.

(** ** No repository is left out *)

Section Complete.

Variable yaml_Unmarshal : string → document + error.
Variable client : Client.

(** The limit is switched off in the source: [maxRepos] is 0. *)
Lemma shouldStopScanning_off repoCount : shouldStopScanning repoCount = false.
Proof. reflexivity. Qed.

Lemma processRepository_first_request org repoName m :
  ∃ res, processRepository yaml_Unmarshal client org repoName m
         = prepend [Request org repoName workflows_dir] res.
Proof. unfold processRepository. by eexists. Qed.

Lemma scanPage_cons_Done org r rest repoCount m flow o :
  scanPage yaml_Unmarshal client org (r :: rest) repoCount m = Done flow o →
  ∃ text o1 m' o2,
    o = Stdout text :: Request org r workflows_dir :: o1 ++ o2
    ∧ scanPage yaml_Unmarshal client org rest (wrap_int (repoCount + 1)) m' = Done flow o2.
Proof.
  rewrite scanPage_cons, shouldStopScanning_off.
  destruct (logRepoProgress_output repoCount r) as [text ->].
  intros (o1 & (m' & o2 & o3 & Hrepo & Hrest & ->)%bind_Done & ->)%prepend_Done.
  destruct (processRepository_first_request org r m) as [res Hres].
  rewrite Hres in Hrepo. apply prepend_Done in Hrepo as (o4 & _ & ->).
  by exists text, o4, m', o3.
Qed.

Lemma scanPage_Next org repos repoCount m flow o :
  scanPage yaml_Unmarshal client org repos repoCount m = Done flow o →
  ∃ repoCount' m', flow = Next repoCount' m'.
Proof.
  revert repoCount m o; induction repos as [|r rest IH]; intros repoCount m o.
  - intros [= <- _]. by eauto.
  - intros (text & o1 & m' & o2 & _ & Hrest)%scanPage_cons_Done. by eapply IH.
Qed.

Lemma scanPage_complete org repos repoCount m flow o repoName :
  scanPage yaml_Unmarshal client org repos repoCount m = Done flow o →
  repoName ∈ repos →
  Request org repoName workflows_dir ∈ o.
Proof.
  revert repoCount m o; induction repos as [|r rest IH]; intros repoCount m o.
  { by intros _ ?%not_elem_of_nil. }
  intros (text & o1 & m' & o2 & -> & Hrest)%scanPage_cons_Done [->|Hin]%elem_of_cons.
  - right. by left.
  - do 2 right. apply elem_of_app. right. by eapply IH.
Qed.

Lemma scanPages_complete fuel org start repoCount m m' o page repos next repoName :
  scanPages yaml_Unmarshal client fuel org start repoCount m = Some (Done m' o) →
  follows client org start page →
  ListByOrg client org page = Page repos next →
  repoName ∈ repos →
  Request org repoName workflows_dir ∈ o.
Proof.
  revert start repoCount m o; induction fuel as [|fuel IH]; intros start repoCount m o; [done|].
  rewrite scanPages_step. intros Hrun Hfollows Hpage Hin.
  destruct (ListByOrg client org start) as [repos0 next0|err] eqn:Hstart; [|done].
  destruct (scanPage _ _ _ _ _ _) as [flow o0| |] eqn:Hscan; [|by destruct Hfollows..].
  destruct (scanPage_Next _ _ _ _ _ _ Hscan) as (repoCount' & m0 & ->).
  rewrite shouldStopScanning_off in Hrun. simpl in Hrun.
  destruct Hfollows as [|repos1 next1 page Hstart1 Hnext Hfollows].
  - rewrite Hstart in Hpage. injection Hpage as -> ->.
    pose proof (scanPage_complete _ _ _ _ _ _ repoName Hscan Hin) as Hreq.
    destruct (next =? 0).
    + injection Hrun as <- <-. by right.
    + destruct (scanPages _ _ fuel _ _ _ _) as [[m1 o1| |]|]; try done.
      injection Hrun as <- <-. right. apply elem_of_app. by left.
  - rewrite Hstart in Hstart1. injection Hstart1 as -> ->.
    destruct (Z.eqb_spec next1 0) as [->|_]; [done|].
    destruct (scanPages _ _ fuel _ _ _ _) as [[m1 o1| |]|] eqn:Hrest; try done.
    injection Hrun as <- <-. right. apply elem_of_app. right.
    by eapply IH.
Qed.

End Complete.

(** X8.  When the scan returns, it has asked for the workflow directory
    of every repository of every page that the paging loop came to: the
    pages from page 0 on along [NextPage], up to the page whose
    [NextPage] is 0. *)
Theorem scanRepositories_complete
    (yaml_Unmarshal : string → document + error) (client : Client)
    (fuel : nat) (org : string) (usesRepos : usage) (o : list event)
    (page : Z) (repos : list string) (next : Z) (repoName : string) :
  scanRepositories yaml_Unmarshal client fuel org = Some (Done usesRepos o) →
  follows client org 0 page →
  ListByOrg client org page = Page repos next →
  repoName ∈ repos →
  Request org repoName workflows_dir ∈ o.
Proof. apply scanPages_complete. Qed.

Lemma Failures_two_pages :
  scanRepositories Scenario.yaml_Unmarshal Failures.client_two_pages 2 "org"
  = Some (Done (Scenario.final Failures.two_pages_scan) (output Failures.two_pages_scan)).
Proof. vm_compute. reflexivity. Qed.

Lemma scanRepositories_complete_witness :
  Request "org" "lib" workflows_dir ∈ output Failures.two_pages_scan.
Proof.
  apply (scanRepositories_complete Scenario.yaml_Unmarshal Failures.client_two_pages 2 "org"
           (Scenario.final Failures.two_pages_scan) (output Failures.two_pages_scan)
           2 ["lib"] 0 "lib").
  - apply Failures_two_pages.
  - apply (follows_next _ _ _ ["app"] 2 2); [reflexivity | discriminate | apply follows_here].
  - reflexivity.
  - apply list_elem_of_here.
Defined.

(** ** What the analysis asks for, and how it can end *)

Section AnalysisTrace.

Variable infectedPackages : list string.
Variable json_Unmarshal : string → document + error.
Variable client : Client.

Lemma checkPackagesForInfection_output lockJSON info e :
  e ∈ output (checkPackagesForInfection infectedPackages lockJSON info) →
  ∃ text, e = Stdout text.
Proof.
  destruct (checkPackagesForInfection_cases infectedPackages lockJSON info)
    as [->|(found & line & _ & ->)]; simpl.
  - by intros ?%not_elem_of_nil.
  - intros ->%list_elem_of_singleton. by eexists.
Qed.

Lemma analyzeActionDependencies_requests owner repo info o r p :
  Request o r p
  ∈ output (analyzeActionDependencies infectedPackages json_Unmarshal client owner repo info) →
  o = owner ∧ r = repo ∧ (p = lock_path ∨ p = "package.json").
Proof.
  rewrite analyzeActionDependencies_cases.
  destruct (GetContents client owner repo lock_path) as [f|l|err].
  - destruct (GetContent f) as [content|err]; simpl.
    2:{ rewrite !elem_of_cons. intros [[= -> -> ->]|[?|[?|?%not_elem_of_nil]]]; by eauto. }
    destruct (json_Unmarshal content) as [lockJSON|err]; simpl.
    2:{ rewrite !elem_of_cons. intros [[= -> -> ->]|[?|[?|?%not_elem_of_nil]]]; by eauto. }
    rewrite output_prepend. cbn [app]. rewrite !elem_of_cons.
    intros [[= -> -> ->]|[?|He]]; [by eauto|done|].
    by apply checkPackagesForInfection_output in He as [? ?].
  - simpl. rewrite !elem_of_cons. intros [[= -> -> ->]|[?|?%not_elem_of_nil]]; by eauto.
  - rewrite output_prepend, analyzePackageJsonFile_cases. cbn [app]. rewrite elem_of_cons.
    intros [[= -> -> ->]|He]; [by eauto|].
    destruct (GetContents client owner repo "package.json"); simpl in He;
      revert He; rewrite !elem_of_cons;
      intros [[= -> -> ->]|[?|?%not_elem_of_nil]]; by eauto.
Qed.

Lemma analyzeActionDependencies_ends owner repo info :
  ends False (∃ l, GetContents client owner repo lock_path = Directory l)
       (analyzeActionDependencies infectedPackages json_Unmarshal client owner repo info).
Proof.
  rewrite analyzeActionDependencies_cases.
  destruct (GetContents client owner repo lock_path) as [f|l|err]; [|by eexists|].
  - destruct (GetContent f) as [content|err]; [|done].
    destruct (json_Unmarshal content) as [lockJSON|err]; [|done].
    apply ends_prepend.
    by destruct (checkPackagesForInfection_cases infectedPackages lockJSON
                   (set_UsesNpm true info)) as [->|(found & line & _ & ->)].
  - apply ends_prepend. rewrite analyzePackageJsonFile_cases.
    by destruct (GetContents client owner repo "package.json").
Qed.

Lemma analyzeAction_requests actionUse (m : usage) o r p :
  Request o r p
  ∈ output (analyzeAction infectedPackages json_Unmarshal client actionUse m) →
  well_formed actionUse = true ∧ is_Some (m !! actionUse)
  ∧ o = owner_of actionUse ∧ r = repo_of actionUse
  ∧ (p = lock_path ∨ p = "package.json").
Proof.
  unfold analyzeAction, well_formed, owner_of, repo_of.
  destruct (m !! actionUse) as [info|]; [|by intros ?%not_elem_of_nil].
  destruct (Analyzed info); [by intros ?%not_elem_of_nil|].
  destruct (parseActionReference actionUse) as [owner repo]; simpl.
  destruct (_ || _); simpl; [by intros ?%not_elem_of_nil|].
  rewrite output_prepend. cbn [app]. rewrite elem_of_cons. intros [?|He]; [done|].
  apply elem_of_output_bind in He as [He|(info' & o' & _ & ?%not_elem_of_nil)]; [|done].
  apply analyzeActionDependencies_requests in He as (-> & -> & Hp). by eauto.
Qed.

Lemma analyzeAction_ends actionUse (m : usage) :
  ends False
       (well_formed actionUse = true
        ∧ ∃ l, GetContents client (owner_of actionUse) (repo_of actionUse) lock_path
               = Directory l)
       (analyzeAction infectedPackages json_Unmarshal client actionUse m).
Proof.
  unfold analyzeAction, well_formed, owner_of, repo_of.
  destruct (m !! actionUse) as [info|]; [|done].
  destruct (Analyzed info); [done|].
  destruct (parseActionReference actionUse) as [owner repo]; simpl.
  destruct (_ || _); simpl; [done|].
  apply ends_prepend, ends_bind; [|done].
  eapply ends_impl, analyzeActionDependencies_ends; done.
Qed.

Lemma analyzeAction_keys actionUse (m m' : usage) out k :
  analyzeAction infectedPackages json_Unmarshal client actionUse m = Done m' out →
  is_Some (m' !! k) ↔ is_Some (m !! k).
Proof.
  intros Hrun%analyzeAction_Done.
  destruct (m !! actionUse) as [info|] eqn:Hinfo; [|by subst].
  destruct (_ || _); [by subst|]. destruct Hrun as (info1 & o1 & _ & ->).
  destruct (decide (k = actionUse)) as [->|Hne].
  - rewrite lookup_insert_eq, Hinfo. by split.
  - by rewrite lookup_insert_ne.
Qed.

Lemma analyzeKeys_requests order (m : usage) o r p :
  Request o r p ∈ output (analyzeKeys infectedPackages json_Unmarshal client order m) →
  ∃ k, k ∈ order ∧ well_formed k = true ∧ is_Some (m !! k)
       ∧ o = owner_of k ∧ r = repo_of k ∧ (p = lock_path ∨ p = "package.json").
Proof.
  revert m; induction order as [|a rest IH]; intros m; simpl.
  { by intros ?%not_elem_of_nil. }
  intros [He|(m' & o' & Hrun & He)]%elem_of_output_bind.
  - apply analyzeAction_requests in He as (Hwf & Hin & -> & -> & Hp).
    exists a. split; [by left | done].
  - destruct (IH _ He) as (k & Hk & Hwf & Hin & -> & -> & Hp).
    exists k. split; [by right|]. split; [done|]. split; [|done].
    by apply (analyzeAction_keys _ _ _ _ k Hrun).
Qed.

Lemma analyzeKeys_ends order (m : usage) :
  ends False
       (∃ k l, k ∈ order ∧ well_formed k = true
               ∧ GetContents client (owner_of k) (repo_of k) lock_path = Directory l)
       (analyzeKeys infectedPackages json_Unmarshal client order m).
Proof.
  revert m; induction order as [|a rest IH]; intros m; simpl; [done|].
  apply ends_bind.
  - eapply ends_impl, analyzeAction_ends; [done|].
    intros (Hwf & l & Hl). exists a, l. split; [by left | done].
  - intros m'. eapply ends_impl, IH; [done|].
    intros (k & l & Hk & H). exists k, l. split; [by right | done].
Qed.

End AnalysisTrace.

(** X9.  Every contents request of the analysis goes to the owner and
    the repository that [parseActionReference] gives for a well-formed
    key of the usage mapping, and asks for [package-lock.json] or for
    [package.json]. *)
Theorem analyzeActions_requests
    (infectedPackages : list string) (json_Unmarshal : string → document + error)
    (client : Client) (order : list string) (usesRepos : usage) (owner repo path : string) :
  Request owner repo path
  ∈ output (analyzeActions infectedPackages json_Unmarshal client order usesRepos) →
  ∃ k, k ∈ order ∧ well_formed k = true ∧ is_Some (usesRepos !! k)
       ∧ owner = owner_of k ∧ repo = repo_of k
       ∧ (path = lock_path ∨ path = "package.json").
Proof.
  unfold analyzeActions. intros [He|(_ & _ & _ & He)]%elem_of_output_bind.
  - by apply list_elem_of_singleton in He.
  - by eapply analyzeKeys_requests.
Qed.

Lemma analyzeActions_requests_witness :
  ∃ k, k ∈ Scenario.order ∧ well_formed k = true ∧ is_Some (Scenario.scanned !! k)
       ∧ "actor" = owner_of k ∧ "action" = repo_of k
       ∧ ("package-lock.json" = lock_path ∨ "package-lock.json" = "package.json").
Proof.
  apply (analyzeActions_requests Scenario.registry Scenario.json_Unmarshal Scenario.client).
  rewrite Scenario_lock. apply list_elem_of_In. vm_compute. do 2 right. by left.
Defined.

(** X10.  The analysis never exits through [log.Fatalf], and it panics
    only at a well-formed key whose [package-lock.json] is answered with
    a directory listing; when no key of the loop is such, the analysis
    returns. *)
Theorem analyzeActions_ends
    (infectedPackages : list string) (json_Unmarshal : string → document + error)
    (client : Client) (order : list string) (usesRepos : usage) :
  ends False
       (∃ k l, k ∈ order ∧ well_formed k = true
               ∧ GetContents client (owner_of k) (repo_of k) lock_path = Directory l)
       (analyzeActions infectedPackages json_Unmarshal client order usesRepos)
  ∧ ((∀ k l, k ∈ order → well_formed k = true →
             GetContents client (owner_of k) (repo_of k) lock_path ≠ Directory l) →
     ∃ usesRepos' o,
       analyzeActions infectedPackages json_Unmarshal client order usesRepos
       = Done usesRepos' o).
Proof.
  assert (ends False
            (∃ k l, k ∈ order ∧ well_formed k = true
                    ∧ GetContents client (owner_of k) (repo_of k) lock_path = Directory l)
            (analyzeActions infectedPackages json_Unmarshal client order usesRepos)) as Hends.
  { unfold analyzeActions. apply ends_prepend, analyzeKeys_ends. }
  split; [done|]. intros Hnone.
  destruct (analyzeActions _ _ _ _ _) as [m' o| |]; simpl in Hends; [by eauto|done|].
  destruct Hends as (k & l & Hk & Hwf & Hl). by destruct (Hnone k l).
Qed.

Lemma Scenario_no_directory owner repo l :
  GetContents Scenario.client owner repo lock_path ≠ Directory l.
Proof.
  unfold Scenario.client, Scenario.server, lock_path; simpl.
  destruct (String.eqb repo "app"); [done|]. by destruct (_ && _).
Qed.

Lemma analyzeActions_ends_witness :
  ∃ usesRepos' o,
    analyzeActions Scenario.registry Scenario.json_Unmarshal Scenario.client
      Scenario.order Scenario.scanned = Done usesRepos' o.
Proof.
  apply (analyzeActions_ends Scenario.registry Scenario.json_Unmarshal Scenario.client
           Scenario.order Scenario.scanned).
  intros k l _ _. apply Scenario_no_directory.
Defined.

(** ** A second pass of the analysis *)

Section Again.

Variable infectedPackages : list string.
Variable json_Unmarshal : string → document + error.
Variable client : Client.

Lemma analyzeAction_skip actionUse (m : usage) :
  (∀ info, m !! actionUse = Some info →
           Analyzed info = true ∨ well_formed actionUse = false) →
  analyzeAction infectedPackages json_Unmarshal client actionUse m = Done m [].
Proof.
  intros Hskip. unfold analyzeAction.
  destruct (m !! actionUse) as [info|]; [|done].
  destruct (Hskip info eq_refl) as [->|Hwf]; [done|].
  destruct (Analyzed info); [done|].
  unfold well_formed in Hwf. destruct (parseActionReference actionUse) as [owner repo].
  by destruct (_ || _).
Qed.

Lemma analyzeKeys_skip order (m : usage) :
  (∀ k info, k ∈ order → m !! k = Some info →
             Analyzed info = true ∨ well_formed k = false) →
  analyzeKeys infectedPackages json_Unmarshal client order m = Done m [].
Proof.
  induction order as [|a rest IH]; intros Hskip; simpl; [done|].
  rewrite analyzeAction_skip by (intros info; apply Hskip; by left). simpl.
  rewrite IH; [done|]. intros k info Hk. apply Hskip. by right.
Qed.

End Again.

(** X11.  A second pass of the analysis over the mapping that a first
    pass has returned, whatever the server answers by then, sends no
    request and changes nothing: the entries of the well-formed keys are
    marked as analyzed, and the others are skipped again. *)
Theorem analyzeActions_again
    (infectedPackages infectedPackages' : list string)
    (json_Unmarshal json_Unmarshal' : string → document + error)
    (client client' : Client) (order : list string)
    (usesRepos analyzed : usage) (o : list event) :
  analyzeActions infectedPackages json_Unmarshal client order usesRepos = Done analyzed o →
  analyzeActions infectedPackages' json_Unmarshal' client' order analyzed
  = Done analyzed [Stdout (nl +:+ "Analyzing actions..." +:+ nl)].
Proof.
  intros [o' Hkeys]%analyzeActions_Done. unfold analyzeActions.
  rewrite analyzeKeys_skip; [done|].
  intros k info' Hk Hinfo'.
  destruct (usesRepos !! k) as [info|] eqn:Hinfo.
  2:{ by rewrite (analyzeKeys_None _ _ _ _ _ _ _ _ Hkeys Hinfo) in Hinfo'. }
  pose proof (analyzeKeys_lookup _ _ _ _ _ _ _ _ _ Hkeys Hinfo) as H.
  rewrite bool_decide_eq_true_2 in H by done. simpl in H.
  destruct (Analyzed info) eqn:Han; simpl in H.
  { rewrite Hinfo' in H. injection H as ->. by left. }
  destruct (well_formed k); [|by right].
  destruct H as (info1 & o1 & _ & H). rewrite Hinfo' in H. injection H as ->. by left.
Qed.

Lemma analyzeActions_again_witness :
  analyzeActions [] Scenario.json_Unmarshal Failures.client_no_listing
    Scenario.order (Scenario.final Scenario.result_lock)
  = Done (Scenario.final Scenario.result_lock)
      [Stdout (nl +:+ "Analyzing actions..." +:+ nl)].
Proof.
  exact (analyzeActions_again Scenario.registry [] Scenario.json_Unmarshal
           Scenario.json_Unmarshal Scenario.client Failures.client_no_listing
           Scenario.order Scenario.scanned (Scenario.final Scenario.result_lock)
           (output Scenario.result_lock) Scenario_lock).
Defined.

(** ** The order of the jobs and of the steps *)

Lemma uses_in_Permutation (workflow workflow' : document) jobs jobs' uses :
  index workflow "jobs" = VMap jobs → index workflow' "jobs" = VMap jobs' →
  jobs ≡ₚ jobs' → uses_in workflow uses → uses_in workflow' uses.
Proof.
  intros Hj Hj' Hperm (js & id & job & steps & step & Hjs & Hin & H).
  rewrite Hj in Hjs. injection Hjs as <-.
  exists jobs', id, job, steps, step. split; [done|]. split; [|done].
  by rewrite <-Hperm.
Qed.

(** X12.  What [extractActionsFromWorkflow] makes of the usage mapping
    depends only on which [uses] strings the document holds: two
    documents with the same [uses] strings give the same mapping, and so
    do two documents whose [jobs] mappings hold the same jobs in another
    order. *)
Theorem extractActionsFromWorkflow_order
    (yaml_Unmarshal : string → document + error)
    (text text' repoName : string) (usesRepos : usage) (workflow workflow' : document) :
  yaml_Unmarshal text = inl workflow →
  yaml_Unmarshal text' = inl workflow' →
  ((∀ uses, uses_in workflow uses ↔ uses_in workflow' uses) →
   extractActionsFromWorkflow yaml_Unmarshal text repoName usesRepos
   = extractActionsFromWorkflow yaml_Unmarshal text' repoName usesRepos)
  ∧ (∀ jobs jobs',
       index workflow "jobs" = VMap jobs → index workflow' "jobs" = VMap jobs' →
       jobs ≡ₚ jobs' →
       extractActionsFromWorkflow yaml_Unmarshal text repoName usesRepos
       = extractActionsFromWorkflow yaml_Unmarshal text' repoName usesRepos).
Proof.
  intros Hy Hy'.
  assert ((∀ uses, uses_in workflow uses ↔ uses_in workflow' uses) →
          extractActionsFromWorkflow yaml_Unmarshal text repoName usesRepos
          = extractActionsFromWorkflow yaml_Unmarshal text' repoName usesRepos) as Hsame.
  { intros Huses.
    rewrite (extractActionsFromWorkflow_uses _ _ _ _ _ Hy),
      (extractActionsFromWorkflow_uses _ _ _ _ _ Hy').
    f_equal. apply map_eq. intros k. rewrite !add_all_lookup.
    destruct (decide (k ∈ workflow_uses workflow)) as [Hin|Hin],
      (decide (k ∈ workflow_uses workflow')) as [Hin'|Hin']; try done;
      rewrite !elem_of_workflow_uses in *; by destruct (Huses k); tauto. }
  split; [done|]. intros jobs jobs' Hj Hj' Hperm. apply Hsame.
  intros uses. split; eapply uses_in_Permutation; done.
Qed.

Lemma extractActionsFromWorkflow_order_witness :
  extractActionsFromWorkflow Versions.yaml_Unmarshal Versions.workflow_text "app" ∅
  = extractActionsFromWorkflow Versions.yaml_Unmarshal Versions.workflow_text' "app" ∅.
Proof.
  eapply (extractActionsFromWorkflow_order Versions.yaml_Unmarshal
            Versions.workflow_text Versions.workflow_text' "app" ∅
            Versions.workflow Versions.workflow' eq_refl eq_refl).
  - reflexivity.
  - reflexivity.
  - apply perm_swap.
Defined.

(** ** One repository, one finding *)











(** ** Missing configuration *)

(** X14.  Without [GITHUB_TOKEN] the program logs that the variable is
    not set and exits; with the token but without [GITHUB_ORG] it does
    the same for that variable.  In both cases it has sent no request and
    printed nothing, whatever the server would answer. *)
Theorem main_missing_env
    (infectedPackages : list string)
    (yaml_Unmarshal json_Unmarshal : string → document + error)
    (Getenv : string → string) (NewClient : string → Client)
    (ranges : Ranges) (fuel : nat) :
  (Getenv "GITHUB_TOKEN" = "" →
   main infectedPackages yaml_Unmarshal json_Unmarshal Getenv NewClient ranges fuel
   = Some (Fatal [Logged "GITHUB_TOKEN environment variable is not set"]))
  ∧ (Getenv "GITHUB_TOKEN" ≠ "" → Getenv "GITHUB_ORG" = "" →
     main infectedPackages yaml_Unmarshal json_Unmarshal Getenv NewClient ranges fuel
     = Some (Fatal [Logged "GITHUB_ORG environment variable is not set"])).
Proof.
  unfold main, getRequiredEnv. split.
  - by intros ->.
  - intros Htoken ->. by destruct (String.eqb_spec (Getenv "GITHUB_TOKEN") "").
Qed.

Lemma main_missing_env_witness :
  main Scenario.registry Scenario.yaml_Unmarshal Scenario.json_Unmarshal
    (λ key, if String.eqb key "GITHUB_TOKEN" then "token" else "")
    (λ _, Scenario.client) Scenario.ranges 1
  = Some (Fatal [Logged "GITHUB_ORG environment variable is not set"]).
Proof.
  apply (main_missing_env Scenario.registry Scenario.yaml_Unmarshal Scenario.json_Unmarshal
           (λ key, if String.eqb key "GITHUB_TOKEN" then "token" else "")
           (λ _, Scenario.client) Scenario.ranges 1); [discriminate | reflexivity].
Defined.

(** ** Workflow files *)

(** X15.  [isWorkflowFile] accepts exactly the entries of type [file]
    whose name ends in [.yml] or in [.yaml], in this spelling: a
    directory is not accepted, nor a name in capitals. *)
Theorem isWorkflowFile_spec (content : RepositoryContent) :
  (isWorkflowFile content = true
   ↔ GetType content = "file"
     ∧ ∃ stem, GetName content = stem +:+ ".yml" ∨ GetName content = stem +:+ ".yaml")
  ∧ isWorkflowFile {| GetType := "dir"; GetName := "nested.yml";
                      GetPath := ".github/workflows/nested.yml"; GetContent := inl "" |}
    = false
  ∧ isWorkflowFile {| GetType := "file"; GetName := "CI.YML";
                      GetPath := ".github/workflows/CI.YML"; GetContent := inl "" |}
    = false.
Proof.
  split; [|by split]. unfold isWorkflowFile.
  rewrite andb_true_iff, orb_true_iff, String.eqb_eq. split.
  - intros [Htype [[stem H]%StringFacts.HasSuffix_inv|[stem H]%StringFacts.HasSuffix_inv]];
      (split; [done|]); exists stem; by eauto.
  - intros [Htype [stem [->| ->]]]; (split; [done|]);
      [left | right]; apply StringFacts.HasSuffix_app.
Qed.

(** ** The report *)

Lemma printEntry_output repo_order use info e :
  e ∈ printEntry repo_order use info → ∃ text, e = Stdout text.
Proof.
  unfold printEntry. rewrite !elem_of_app. intros [He|[He|[He|[He|He]]]].
  - apply elem_of_cons in He as [-> | ->%list_elem_of_singleton]; by eexists.
  - destruct (IsInfected info).
    + apply elem_of_cons in He as [-> | ->%list_elem_of_singleton]; by eexists.
    + apply list_elem_of_singleton in He as ->. by eexists.
  - apply list_elem_of_singleton in He as ->. by eexists.
  - apply list_elem_of_fmap in He as (repo & -> & _). by eexists.
  - apply list_elem_of_singleton in He as ->. by eexists.
Qed.

(** X16.  For every key that the loop of [printResults] comes to, the
    report holds the line of the key, its [Uses npm] line, one line for
    each repository of the repository set of the entry and, when the
    entry is infected, the line of its infected packages.  The report is
    nothing but standard output: it sends no request and logs nothing. *)
Theorem printResults_reports
    (report_order : list string) (repo_order : string → set_range)
    (usesRepos : usage) (use : string) (info : ActionInfo) :
  use ∈ report_order → usesRepos !! use = Some info →
  ∃ o, printResults report_order repo_order usesRepos = Done () o
       ∧ Stdout (use +:+ ":" +:+ nl) ∈ o
       ∧ Stdout ("  Uses npm: " +:+ fmt_bool (UsesNpm info) +:+ nl) ∈ o
       ∧ (∀ repo, repo ∈ Repos info → Stdout ("    - " +:+ repo +:+ nl) ∈ o)
       ∧ (IsInfected info = true →
          Stdout ("  Infected packages: " +:+ fmt_strings (InfectedPackages info) +:+ nl) ∈ o)
       ∧ (∀ e, e ∈ o → ∃ text, e = Stdout text).
Proof.
  intros Huse Hinfo. eexists. split; [reflexivity|].
  assert (∀ e, e ∈ printEntry (repo_order use) use info →
               e ∈ Stdout (nl +:+ "Actions and the repositories they are used in:" +:+ nl)
                   :: (report_order ≫= λ use, match usesRepos !! use with
                                              | Some info => printEntry (repo_order use) use info
                                              | None => []
                                              end)) as Hentry.
  { intros e He. right. apply list_elem_of_bind. exists use. by rewrite Hinfo. }
  split; [|split; [|split; [|split]]].
  - apply Hentry. unfold printEntry. rewrite !elem_of_app. left. by left.
  - apply Hentry. unfold printEntry. rewrite !elem_of_app. left. right. by left.
  - intros repo Hrepo. apply Hentry. unfold printEntry. rewrite !elem_of_app.
    do 3 right. left. apply list_elem_of_fmap. exists repo. split; [done|].
    destruct (repo_order use (Repos info)) as [l Hl]. simpl.
    rewrite Hl. by apply elem_of_elements.
  - intros Hinf. apply Hentry. unfold printEntry. rewrite !elem_of_app, Hinf.
    right. left. right. by left.
  - intros e [->|He]%elem_of_cons; [by eexists|].
    apply list_elem_of_bind in He as (u & He & _).
    destruct (usesRepos !! u); [by eapply printEntry_output | by apply not_elem_of_nil in He].
Qed.

Lemma printResults_reports_witness :
  ∃ o, printResults Scenario.order (λ _, elements_range) (Scenario.final Scenario.result_lock)
       = Done () o
       ∧ Stdout ("    - app" +:+ nl) ∈ o
       ∧ Stdout ("  Infected packages: [left-pad@1.3.0]" +:+ nl) ∈ o.
Proof.
  destruct (printResults_reports Scenario.order (λ _, elements_range)
              (Scenario.final Scenario.result_lock) "actor/action@v1"
              Scenario.infected_entry)
    as (o & Hrun & _ & _ & Hrepos & Hinfected & _).
  - apply list_elem_of_In. vm_compute. right. by left.
  - apply Scenario_infected_entry.
  - exists o. split; [exact Hrun|]. split; [|exact (Hinfected eq_refl)].
    apply (Hrepos "app"). change ("app" ∈ ({["app"]} : gset string)).
    by apply elem_of_singleton.
Defined.

(** ** Sightings *)

Lemma with_repo_comm r1 r2 info :
  with_repo r1 (with_repo r2 info) = with_repo r2 (with_repo r1 info).
Proof.
  unfold with_repo, set_Repos; simpl. f_equal.
  by rewrite !(assoc_L (∪)), (comm_L (∪) {[r1]}).
Qed.

(** X17.  Sightings can be recorded in any order, and recording one
    twice is the same as recording it once. *)
Theorem addActionUsage_order (u1 r1 u2 r2 : string) (usesRepos : usage) :
  addActionUsage u1 r1 (addActionUsage u2 r2 usesRepos)
  = addActionUsage u2 r2 (addActionUsage u1 r1 usesRepos)
  ∧ addActionUsage u1 r1 (addActionUsage u1 r1 usesRepos) = addActionUsage u1 r1 usesRepos.
Proof.
  split; apply map_eq; intros k; rewrite !addActionUsage_lookup.
  - destruct (decide (k = u1)) as [Hk1|H1], (decide (k = u2)) as [Hk2|H2];
      simplify_eq/=; try done.
    + rewrite !decide_True by done. simpl. by rewrite with_repo_comm.
    + by rewrite decide_False by done.
    + by rewrite decide_False by done.
  - destruct (decide (k = u1)) as [->|H1]; [|done].
    rewrite decide_True by done. simpl. by rewrite with_repo_idemp.
Qed.
